(** * myDB.py: an in-memory key-value store with nested transactions

    A shallow embedding of [src/myDB.py] (class [DB], its eight methods,
    [performCommand] and the read loop) and the properties of it that the
    specification states.

    Python objects that the program mutates in place (the dictionaries held
    in [self.xcts] and [self.valueCounts], and the two attributes
    [self.currXct] / [self.currValCount] that alias one of them) live in an
    explicit heap: an attribute holds a reference, [d.copy()] allocates.  A
    method is a function from states to outcomes: normal return, an
    uncaught Python exception, or a reference to a cell that was never
    allocated (which the reachable states never produce). *)

From Stdlib Require Import Ascii String ZArith.
From stdpp Require Import base option list gmap strings pretty.

Local Open Scope string_scope.
Local Open Scope list_scope.
Local Open Scope nat_scope.

(** ** Python primitives used by the program *)

Module Py.

(** The newline character, and the one-character string ['\n']. *)
Definition nl_char : ascii := "010"%char.
Definition nl : string := String nl_char "".

(** A string is a sequence of code points below 256, one [ascii] each.

    [c.isspace()] for a Python 3 [str], the characters that [str.strip()]
    drops when it is called without argument: tab, line feed, vertical tab, form feed,
    carriage return, the four separators 0x1c-0x1f, the space, and in the
    upper half the next-line control 0x85 and the no-break space 0xa0. *)
Definition is_space (c : ascii) : bool :=
  match c with
  | "009" | "010" | "011" | "012" | "013"
  | "028" | "029" | "030" | "031" | " "
  | "133" | "160" => true
  | _ => false
  end%char.

(** [str.lstrip()] / [str.rstrip()] / [str.strip()] without argument:
    drop leading / trailing whitespace. *)
Fixpoint lstrip (s : string) : string :=
  match s with
  | "" => ""
  | String c t => if is_space c then lstrip t else s
  end.

Fixpoint rstrip (s : string) : string :=
  match s with
  | "" => ""
  | String c t =>
      match rstrip t with
      | "" => if is_space c then "" else String c ""
      | t' => String c t'
      end
  end.

Definition strip (s : string) : string := rstrip (lstrip s).

(** [s.split(sep)] for a one-character separator: every occurrence of
    [sep] cuts; empty fields are kept; the result is never empty. *)
Fixpoint split (sep : ascii) (s : string) : list string :=
  match s with
  | "" => [""]
  | String c t =>
      if decide (c = sep) then "" :: split sep t
      else match split sep t with
           | w :: ws => String c w :: ws
           | [] => [String c ""]
           end
  end.

(** [str(n)] for an [int]. *)
Definition str_int (n : Z) : string := pretty n.

End Py.

(** ** Data model *)

(** A reference to a dictionary object. *)
Definition loc := nat.

(** The contents of the two kinds of dictionary the program builds: a
    transaction maps a name to a value or to [None] (Python's [None], which
    [unset] stores); a value count maps a value to an [int]. *)
Abbreviation snapshot := (gmap string (option string)).
Abbreviation counts := (gmap string Z).

(** The exceptions the program can raise. [SystemExit] is [sys.exit()]. *)
Inductive exn := KeyError | IndexError | SystemExit.

(** The state: the five attributes of the [DB] object, the dictionary
    objects they refer to, and what has been written to [sys.stdout] (one
    entry per [write] call, oldest first). *)
Record state := mkState {
  xcts : list loc;
  valueCounts : list loc;
  inTransac : bool;
  currXct : loc;
  currValCount : loc;
  heapX : list snapshot;
  heapC : list counts;
  stdout : list string;
}.

Definition with_xcts (v : list loc) (s : state) : state :=
  mkState v (valueCounts s) (inTransac s) (currXct s) (currValCount s)
          (heapX s) (heapC s) (stdout s).
Definition with_valueCounts (v : list loc) (s : state) : state :=
  mkState (xcts s) v (inTransac s) (currXct s) (currValCount s)
          (heapX s) (heapC s) (stdout s).
Definition with_inTransac (v : bool) (s : state) : state :=
  mkState (xcts s) (valueCounts s) v (currXct s) (currValCount s)
          (heapX s) (heapC s) (stdout s).
Definition with_currXct (v : loc) (s : state) : state :=
  mkState (xcts s) (valueCounts s) (inTransac s) v (currValCount s)
          (heapX s) (heapC s) (stdout s).
Definition with_currValCount (v : loc) (s : state) : state :=
  mkState (xcts s) (valueCounts s) (inTransac s) (currXct s) v
          (heapX s) (heapC s) (stdout s).
Definition with_heapX (v : list snapshot) (s : state) : state :=
  mkState (xcts s) (valueCounts s) (inTransac s) (currXct s) (currValCount s)
          v (heapC s) (stdout s).
Definition with_heapC (v : list counts) (s : state) : state :=
  mkState (xcts s) (valueCounts s) (inTransac s) (currXct s) (currValCount s)
          (heapX s) v (stdout s).
Definition with_stdout (v : list string) (s : state) : state :=
  mkState (xcts s) (valueCounts s) (inTransac s) (currXct s) (currValCount s)
          (heapX s) (heapC s) v.

(** ** The monad of methods *)

Inductive outcome (A : Type) : Type :=
  | Ret (a : A) (s : state)
  | Raise (e : exn) (s : state)
  | Dangling.
Arguments Ret {A} a s.
Arguments Raise {A} e s.
Arguments Dangling {A}.

Definition M (A : Type) : Type := state → outcome A.

Definition ret {A} (a : A) : M A := λ s, Ret a s.
Definition bind {A B} (m : M A) (f : A → M B) : M B :=
  λ s, match m s with
       | Ret a s' => f a s'
       | Raise e s' => Raise e s'
       | Dangling => Dangling
       end.
Definition raise {A} (e : exn) : M A := λ s, Raise e s.

Declare Scope py_scope.
Delimit Scope py_scope with py.
Notation "x <- m ;; k" := (bind m (λ x, k))
  (at level 100, m at next level, right associativity) : py_scope.
Notation "m ;; k" := (bind m (λ _, k))
  (at level 100, right associativity) : py_scope.
Local Open Scope py_scope.

Definition skip : M unit := ret tt.
Definition attr {A} (f : state → A) : M A := λ s, Ret (f s) s.
Definition assign (f : state → state) : M unit := λ s, Ret tt (f s).

(** [sys.stdout.write(t)] *)
Definition write (t : string) : M unit :=
  assign (λ s, with_stdout (stdout s ++ [t]) s).

(** *** Python lists of references *)

(** [l[0]] and [l[-1]]: [IndexError] on the empty list. *)
Definition first (l : list loc) : M loc :=
  match l !! 0 with Some x => ret x | None => raise IndexError end.
Definition top (l : list loc) : M loc :=
  match last l with Some x => ret x | None => raise IndexError end.
(** [l.pop()] returns the list without its last element. *)
Definition pop (l : list loc) : M (list loc) :=
  match l with [] => raise IndexError | _ => ret (removelast l) end.
(** [instruc[i]] *)
Definition field (l : list string) (i : nat) : M string :=
  match l !! i with Some x => ret x | None => raise IndexError end.

(** *** Dictionary objects *)

Definition derefX (l : loc) : M snapshot :=
  λ s, match heapX s !! l with Some d => Ret d s | None => Dangling end.
Definition storeX (l : loc) (d : snapshot) : M unit :=
  λ s, match heapX s !! l with
       | Some _ => Ret tt (with_heapX (<[l := d]> (heapX s)) s)
       | None => Dangling
       end.
Definition newX (d : snapshot) : M loc :=
  λ s, Ret (length (heapX s)) (with_heapX (heapX s ++ [d]) s).

Definition derefC (l : loc) : M counts :=
  λ s, match heapC s !! l with Some d => Ret d s | None => Dangling end.
Definition storeC (l : loc) (d : counts) : M unit :=
  λ s, match heapC s !! l with
       | Some _ => Ret tt (with_heapC (<[l := d]> (heapC s)) s)
       | None => Dangling
       end.
Definition newC (d : counts) : M loc :=
  λ s, Ret (length (heapC s)) (with_heapC (heapC s ++ [d]) s).

(** [k in d], [d[k]], [d[k] = v], [d.copy()] on a transaction. *)
Definition x_contains (l : loc) (k : string) : M bool :=
  d <- derefX l ;; ret (bool_decide (is_Some (d !! k))).
Definition x_getitem (l : loc) (k : string) : M (option string) :=
  d <- derefX l ;;
  match d !! k with Some v => ret v | None => raise KeyError end.
Definition x_setitem (l : loc) (k : string) (v : option string) : M unit :=
  d <- derefX l ;; storeX l (<[k := v]> d).
Definition x_copy (l : loc) : M loc :=
  d <- derefX l ;; newX d.

(** The same on a value count.  Its keys are values, that is strings. *)
Definition c_contains (l : loc) (k : string) : M bool :=
  d <- derefC l ;; ret (bool_decide (is_Some (d !! k))).
Definition c_getitem (l : loc) (k : string) : M Z :=
  d <- derefC l ;;
  match d !! k with Some n => ret n | None => raise KeyError end.
Definition c_setitem (l : loc) (k : string) (n : Z) : M unit :=
  d <- derefC l ;; storeC l (<[k := n]> d).
Definition c_copy (l : loc) : M loc :=
  d <- derefC l ;; newC d.

(** [d[k] += z] and [d[k] -= z]: a lookup, then a store. *)
Definition c_iadd (l : loc) (k : string) (z : Z) : M unit :=
  n <- c_getitem l k ;; c_setitem l k (n + z).
Definition c_isub (l : loc) (k : string) (z : Z) : M unit :=
  n <- c_getitem l k ;; c_setitem l k (n - z).

(** [o in d] and [d[o] -= z] for an [o] that is a value or [None], as
    [oldVal] in [DB.set] is.  No key of a value count is [None]: the
    program only stores under strings. *)
Definition c_contains_obj (l : loc) (o : option string) : M bool :=
  match o with
  | Some k => c_contains l k
  | None => d <- derefC l ;; ret false
  end.
Definition c_isub_obj (l : loc) (o : option string) (z : Z) : M unit :=
  match o with
  | Some k => c_isub l k z
  | None => d <- derefC l ;; raise KeyError
  end.

(** ** class DB *)

(** The command words. *)
Definition SET := "SET".
Definition GET := "GET".
Definition UNSET := "UNSET".
Definition NUMEQUALTO := "NUMEQUALTO".
Definition END := "END".
Definition BEGIN := "BEGIN".
Definition ROLLBACK := "ROLLBACK".
Definition COMMIT := "COMMIT".

(** [DB()]: [__init__] builds four dictionaries; the two in the stacks are
    distinct from the two that [currXct] and [currValCount] first name. *)
Definition init : state :=
  {| xcts := [0]; valueCounts := [0]; inTransac := false;
     currXct := 1; currValCount := 1;
     heapX := [∅; ∅]; heapC := [∅; ∅]; stdout := [] |}.

(** [DB.set].  [oldVal] is a value or [None]; [and] evaluates its right
    operand only when the left one holds. *)
Definition set (name value : string) : M unit :=
  cx <- attr currXct ;;
  cc <- attr currValCount ;;
  b <- x_contains cx name ;;
  (if b then
     oldVal <- x_getitem cx name ;;
     known <- (if bool_decide (oldVal ≠ Some value)
               then c_contains_obj cc oldVal else ret false) ;;
     if known then c_isub_obj cc oldVal 1 else skip
   else skip) ;;
  x_setitem cx name (Some value) ;;
  b <- c_contains cc value ;;
  if b then c_iadd cc value 1 else c_setitem cc value 1.

(** [DB.get] *)
Definition get (name : string) : M unit :=
  cx <- attr currXct ;;
  b <- x_contains cx name ;;
  value <- (if b then x_getitem cx name else ret None) ;;
  match value with
  | None => write ("NULL" +:+ Py.nl)
  | Some v => write (v +:+ Py.nl)
  end.

(** [DB.unset] *)
Definition unset (name : string) : M unit :=
  cx <- attr currXct ;;
  cc <- attr currValCount ;;
  oldVal <- x_getitem cx name ;;
  x_setitem cx name None ;;
  match oldVal with
  | Some old => c_isub cc old 1
  | None => skip
  end.

(** [DB.numEqualTo] *)
Definition numEqualTo (value : string) : M unit :=
  cc <- attr currValCount ;;
  b <- c_contains cc value ;;
  if b then
    n <- c_getitem cc value ;;
    write (Py.str_int n) ;; write Py.nl
  else
    write (Py.str_int 0) ;; write Py.nl.

(** [DB.end] *)
Definition end_ : M unit := raise SystemExit.

(** [DB.begin] *)
Definition begin : M unit :=
  assign (with_inTransac true) ;;
  xs <- attr xcts ;;
  t <- top xs ;;
  xct <- x_copy t ;;
  assign (λ s, with_xcts (xcts s ++ [xct]) s) ;;
  vs <- attr valueCounts ;;
  t <- top vs ;;
  valCount <- c_copy t ;;
  assign (λ s, with_valueCounts (valueCounts s ++ [valCount]) s).

(** [DB.rollback] *)
Definition rollback : M unit :=
  t <- attr inTransac ;;
  if negb t then write ("NO TRANSACTION" +:+ Py.nl)
  else
    xs <- attr xcts ;;
    xs' <- pop xs ;;
    assign (with_xcts xs') ;;
    vs <- attr valueCounts ;;
    vs' <- pop vs ;;
    assign (with_valueCounts vs') ;;
    xs <- attr xcts ;;
    if bool_decide (xs = []) then assign (with_inTransac false) else skip.

(** [DB.commit] *)
Definition commit : M unit :=
  t <- attr inTransac ;;
  (if negb t then write ("NO TRANSACTION" +:+ Py.nl)
   else
     cx <- attr currXct ;;
     x <- x_copy cx ;;
     assign (with_xcts [x]) ;;
     cc <- attr currValCount ;;
     c <- c_copy cc ;;
     assign (with_valueCounts [c])) ;;
  assign (with_inTransac false).

(** [DB.performCommand], lines 230-235: point [currXct] and [currValCount]
    at the committed dictionaries or at the top of the stacks. *)
Definition point_current : M unit :=
  t <- attr inTransac ;;
  if negb t then
    xs <- attr xcts ;; x <- first xs ;; assign (with_currXct x) ;;
    vs <- attr valueCounts ;; v <- first vs ;; assign (with_currValCount v)
  else
    xs <- attr xcts ;; x <- top xs ;; assign (with_currXct x) ;;
    vs <- attr valueCounts ;; v <- top vs ;; assign (with_currValCount v).

(** [DB.performCommand], lines 237-258: the chain of comparisons. *)
Definition dispatch (command : string) (instruc : list string) : M unit :=
  if decide (command = BEGIN) then begin
  else if decide (command = ROLLBACK) then rollback
  else if decide (command = COMMIT) then commit
  else if decide (command = SET) then
    name <- field instruc 1 ;;
    value <- field instruc 2 ;;
    set name value
  else if decide (command = GET) then
    name <- field instruc 1 ;; get name
  else if decide (command = UNSET) then
    name <- field instruc 1 ;; unset name
  else if decide (command = NUMEQUALTO) then
    value <- field instruc 1 ;; numEqualTo value
  else if decide (command = END) then end_
  else write ("Invalid command. Try again." +:+ Py.nl).

(** [DB.performCommand] *)
Definition performCommand (line : string) : M unit :=
  let instruc := Py.split " " (Py.strip line) in
  command <- field instruc 0 ;;
  point_current ;;
  dispatch command instruc.

(** The read loop of [__main__] on the lines [readline] delivers; an empty
    string is end of input. *)
Fixpoint main_loop (lines : list string) : M unit :=
  match lines with
  | [] => skip
  | line :: rest =>
      if decide (line = "") then skip
      else performCommand line ;; main_loop rest
  end.

Definition main (lines : list string) : outcome unit := main_loop lines init.


(** ** Command lines *)

(** [' '.join(ws)] and the line a client sends for the words [ws]. *)
Fixpoint join (ws : list string) : string :=
  match ws with
  | [] => ""
  | [w] => w
  | w :: rest => w +:+ " " +:+ join rest
  end.
Definition cmd (ws : list string) : string := join ws +:+ Py.nl.

(** A word: not empty, no whitespace in it. *)
Fixpoint spaceless (s : string) : bool :=
  match s with
  | "" => true
  | String c t => negb (Py.is_space c) && spaceless t
  end.
Definition is_word (s : string) : bool :=
  negb (bool_decide (s = "")) && spaceless s.

(** The fields of a line, as [performCommand] cuts them. *)
Definition fields (line : string) : list string :=
  Py.split " " (Py.strip line).

(** ** Vocabulary of the properties *)

(** [d[k] -= 1] and the increment-or-initialise at the end of [DB.set]. *)
Definition decr (old : string) (c : counts) : counts :=
  match c !! old with Some n => <[old := (n - 1)%Z]> c | None => c end.
Definition incr (v : string) (c : counts) : counts :=
  match c !! v with Some n => <[v := (n + 1)%Z]> c | None => <[v := 1%Z]> c end.

(** The value count that [DB.set] leaves, from the transaction [m] and the
    value count [c] it starts with. *)
Definition set_counts (m : snapshot) (c : counts) (k v : string) : counts :=
  incr v (match m !! k with
          | Some (Some old) => if bool_decide (old ≠ v) then decr old c else c
          | _ => c
          end).

(** What [DB.get] writes for the name [k] in the transaction [m]. *)
Definition get_text (m : snapshot) (k : string) : string :=
  match m !! k with
  | Some (Some v) => v +:+ Py.nl
  | _ => "NULL" +:+ Py.nl
  end.

(** What [DB.numEqualTo] reports for the value [v] in the value count [c]. *)
Definition count_of (c : counts) (v : string) : Z := default 0%Z (c !! v).

(** The pair of dictionaries that [performCommand] makes current: the
    committed pair outside a transaction, the top of the stacks inside. *)
Definition current (s : state) : option (loc * loc) :=
  if inTransac s then
    match last (xcts s), last (valueCounts s) with
    | Some x, Some v => Some (x, v)
    | _, _ => None
    end
  else
    match xcts s !! 0, valueCounts s !! 0 with
    | Some x, Some v => Some (x, v)
    | _, _ => None
    end.

(** Every value a transaction holds has an entry in the value count. *)
Definition covered (m : snapshot) (c : counts) : Prop :=
  ∀ k v, m !! k = Some (Some v) → is_Some (c !! v).

(** What holds between two commands: the stacks have the same height and
    at most one layer outside a transaction, no dictionary sits at two
    places of a stack, every reference in a stack is allocated, and each
    transaction is covered by the value count at the same height. *)
Record inv (s : state) : Prop := mkInv {
  inv_length : length (xcts s) = length (valueCounts s);
  inv_idle : inTransac s = false → (length (xcts s) ≤ 1)%nat;
  inv_nodupX : NoDup (xcts s);
  inv_nodupC : NoDup (valueCounts s);
  inv_allocX : ∀ x, x ∈ xcts s → (x < length (heapX s))%nat;
  inv_allocC : ∀ v, v ∈ valueCounts s → (v < length (heapC s))%nat;
  inv_covered : ∀ i x v m c,
    xcts s !! i = Some x → valueCounts s !! i = Some v →
    heapX s !! x = Some m → heapC s !! v = Some c → covered m c;
}.

(** The states the program is in between two lines of input: the fresh
    database, and what a line that returned leaves. *)
Inductive reachable : state → Prop :=
  | reach_init : reachable init
  | reach_step s line s' :
      reachable s → performCommand line s = Ret tt s' → reachable s'.

(** The state in which a method stopped, by return or by exception. *)
Definition final {A} (o : outcome A) : option state :=
  match o with
  | Ret _ s | Raise _ s => Some s
  | Dangling => None
  end.

(** A line that [performCommand] hands to [set] or to [unset]: its first
    field is SET or UNSET, whatever follows. *)
Definition is_update (line : string) : Prop :=
  hd "" (fields line) = SET ∨ hd "" (fields line) = UNSET.

(** The states in which one layer sits on the stacks of [s] and every
    dictionary of [s] is as it was. *)
Definition pushed_on (s t : state) : Prop :=
  xcts t = xcts s ++ [length (heapX s)] ∧
  valueCounts t = valueCounts s ++ [length (heapC s)] ∧
  inTransac t = true ∧
  ∃ m c, heapX t = heapX s ++ [m] ∧ heapC t = heapC s ++ [c].

(** The number of names that the transaction [m] binds to the value [v]. *)
Definition holders (v : string) (m : snapshot) : nat :=
  size (filter (λ kv, kv.2 = Some v) m).

(** The store after [SET a 10] on a fresh database. *)
Definition one_binding : state :=
  match main [cmd [SET; "a"; "10"]] with
  | Ret _ s => s
  | _ => init
  end.

(** ** Vocabulary of the further properties *)

(** The eight command words. *)
Definition commands : list string :=
  [BEGIN; ROLLBACK; COMMIT; SET; GET; UNSET; NUMEQUALTO; END].

(** The command words that read an argument. *)
Definition data_commands : list string := [SET; GET; UNSET; NUMEQUALTO].

(** The number of fields that [performCommand] reads after the command
    word: two for SET, one for GET, UNSET and NUMEQUALTO, none otherwise. *)
Definition arity (command : string) : nat :=
  if decide (command = SET) then 2
  else if decide (command ∈ [GET; UNSET; NUMEQUALTO]) then 1
  else 0.

(** A string without the separator, the space character. *)
Fixpoint gapless (s : string) : bool :=
  match s with
  | "" => true
  | String c t => negb (bool_decide (c = " "%char)) && gapless t
  end.

(** What the current pair of dictionaries holds: what GET and NUMEQUALTO
    read. *)
Definition view (s : state) : option (snapshot * counts) :=
  match current s with
  | Some (x, v) =>
      match heapX s !! x, heapC s !! v with
      | Some m, Some c => Some (m, c)
      | _, _ => None
      end
  | None => None
  end.

(** The count of every value is at least the number of names holding it. *)
Definition at_least (m : snapshot) (c : counts) : Prop :=
  ∀ v, (Z.of_nat (holders v m) ≤ count_of c v)%Z.

(** A relation that holds between the two dictionaries of every layer. *)
Definition layers_sat (R : snapshot → counts → Prop) (s : state) : Prop :=
  ∀ i x v m c,
    xcts s !! i = Some x → valueCounts s !! i = Some v →
    heapX s !! x = Some m → heapC s !! v = Some c → R m c.

(** What SET and UNSET make of a pair of dictionaries. *)
Inductive written (m : snapshot) (c : counts) : snapshot → counts → Prop :=
  | wr_set k val :
      written m c (<[k := Some val]> m) (set_counts m c k val)
  | wr_unset k old n :
      m !! k = Some (Some old) → c !! old = Some n →
      written m c (<[k := None]> m) (<[old := (n - 1)%Z]> c)
  | wr_unset_none k :
      m !! k = Some None → written m c (<[k := None]> m) c.

(** The five ways in which a command that returns changes the store. *)
Inductive effect (s s' : state) : Prop :=
  | eff_frame :
      xcts s' = xcts s → valueCounts s' = valueCounts s →
      inTransac s' = inTransac s →
      heapX s' = heapX s → heapC s' = heapC s → effect s s'
  | eff_write x v m c m' c' :
      current s = Some (x, v) →
      heapX s !! x = Some m → heapC s !! v = Some c →
      written m c m' c' →
      xcts s' = xcts s → valueCounts s' = valueCounts s →
      inTransac s' = inTransac s →
      heapX s' = <[x := m']> (heapX s) → heapC s' = <[v := c']> (heapC s) →
      effect s s'
  | eff_push x v m c :
      last (xcts s) = Some x → last (valueCounts s) = Some v →
      heapX s !! x = Some m → heapC s !! v = Some c →
      xcts s' = xcts s ++ [length (heapX s)] →
      valueCounts s' = valueCounts s ++ [length (heapC s)] →
      inTransac s' = true →
      heapX s' = heapX s ++ [m] → heapC s' = heapC s ++ [c] → effect s s'
  | eff_pop :
      inTransac s = true → xcts s ≠ [] →
      xcts s' = removelast (xcts s) →
      valueCounts s' = removelast (valueCounts s) →
      inTransac s' = negb (bool_decide (removelast (xcts s) = [])) →
      heapX s' = heapX s → heapC s' = heapC s → effect s s'
  | eff_flatten x v m c :
      inTransac s = true → current s = Some (x, v) →
      heapX s !! x = Some m → heapC s !! v = Some c →
      xcts s' = [length (heapX s)] → valueCounts s' = [length (heapC s)] →
      inTransac s' = false →
      heapX s' = heapX s ++ [m] → heapC s' = heapC s ++ [c] → effect s s'.

(** The store and the output are the same in both states; the two current
    references may differ. *)
Definition same_store (s s' : state) : Prop :=
  xcts s' = xcts s ∧ valueCounts s' = valueCounts s ∧
  inTransac s' = inTransac s ∧
  heapX s' = heapX s ∧ heapC s' = heapC s ∧ stdout s' = stdout s.

(** A string of whitespace only. *)
Fixpoint blank (s : string) : bool :=
  match s with
  | "" => true
  | String c t => Py.is_space c && blank t
  end.

(** ** Parsing a command line *)

Section parsing.

Lemma app_nil_l_str s : "" +:+ s = s.
Proof. reflexivity. Qed.

Lemma app_cons_str c s t : String c s +:+ t = String c (s +:+ t).
Proof. reflexivity. Qed.

Lemma app_assoc_str s t u : (s +:+ t) +:+ u = s +:+ t +:+ u.
Proof.
  induction s as [|c s IH]; [done|].
  by rewrite !app_cons_str, IH.
Qed.

Lemma app_empty_str s t : s +:+ t = "" → s = "" ∧ t = "".
Proof. destruct s; [done|]. by rewrite app_cons_str. Qed.

Lemma is_word_inv w :
  is_word w = true →
  ∃ c t, w = String c t ∧ Py.is_space c = false ∧ spaceless t = true.
Proof.
  unfold is_word. destruct w as [|c t]; [done|]. simpl.
  intros [H1 H2]%andb_prop. exists c, t.
  by apply negb_true_iff in H1.
Qed.

Lemma is_word_spaceless w : is_word w = true → spaceless w = true.
Proof. unfold is_word. by intros [_ ?]%andb_prop. Qed.

Lemma is_word_nonempty w : is_word w = true → w ≠ "".
Proof. by intros (c & t & -> & _)%is_word_inv. Qed.

Lemma split_spaceless w : spaceless w = true → Py.split " " w = [w].
Proof.
  induction w as [|c w IH]; [done|]. simpl.
  intros [Hc Hw]%andb_prop. apply negb_true_iff in Hc.
  destruct (decide (c = " "%char)) as [->|_]; [done|].
  by rewrite IH.
Qed.

Lemma split_spaceless_sp w r :
  spaceless w = true →
  Py.split " " (w +:+ String " " r) = w :: Py.split " " r.
Proof.
  induction w as [|c w IH].
  - intros _. rewrite app_nil_l_str. done.
  - intros [Hc Hw]%andb_prop. apply negb_true_iff in Hc.
    rewrite (app_cons_str c w).
    cbn [Py.split]. rewrite (IH Hw).
    destruct (decide (c = " "%char)) as [->|_]; done.
Qed.

Lemma split_join ws :
  Forall (λ w, is_word w = true) ws → ws ≠ [] → Py.split " " (join ws) = ws.
Proof.
  induction 1 as [|w ws Hw Hws IH]; [done|]. intros _.
  destruct ws as [|w' ws].
  - simpl. by apply split_spaceless, is_word_spaceless.
  - change (join (w :: w' :: ws)) with (w +:+ String " " (join (w' :: ws))).
    rewrite split_spaceless_sp by by apply is_word_spaceless.
    by rewrite IH.
Qed.

Lemma rstrip_spaceless_nl w : spaceless w = true → Py.rstrip (w +:+ Py.nl) = w.
Proof.
  induction w as [|c w IH]; [done|].
  intros [Hc Hw]%andb_prop. apply negb_true_iff in Hc.
  rewrite (app_cons_str c w). cbn [Py.rstrip]. rewrite (IH Hw), Hc.
  by destruct w.
Qed.

Lemma rstrip_app p q :
  Py.rstrip q ≠ "" → Py.rstrip (p +:+ q) = p +:+ Py.rstrip q.
Proof.
  intros Hq. induction p as [|c p IH]; [done|].
  rewrite !(app_cons_str c p). cbn [Py.rstrip]. rewrite IH.
  destruct (p +:+ Py.rstrip q) eqn:E; [|done].
  by apply app_empty_str in E as [_ ?].
Qed.

Lemma join_nonempty ws :
  Forall (λ w, is_word w = true) ws → ws ≠ [] → join ws ≠ "".
Proof.
  destruct 1 as [|w ws Hw _]; [done|]. intros _.
  apply is_word_inv in Hw as (c & t & -> & _).
  by destruct ws.
Qed.

Lemma rstrip_cmd ws :
  Forall (λ w, is_word w = true) ws → ws ≠ [] →
  Py.rstrip (cmd ws) = join ws.
Proof.
  unfold cmd. induction 1 as [|w ws Hw Hws IH]; [done|]. intros _.
  destruct ws as [|w' ws].
  - simpl. by apply rstrip_spaceless_nl, is_word_spaceless.
  - change (join (w :: w' :: ws)) with (w +:+ " " +:+ join (w' :: ws)).
    rewrite !app_assoc_str.
    assert (Py.rstrip (join (w' :: ws) +:+ Py.nl) ≠ "") as Hne.
    { rewrite IH by done. by apply join_nonempty. }
    assert (Py.rstrip (" " +:+ join (w' :: ws) +:+ Py.nl)
            = " " +:+ join (w' :: ws)) as Hsp.
    { rewrite rstrip_app by done. by rewrite IH. }
    rewrite rstrip_app; rewrite Hsp; done.
Qed.

Lemma lstrip_cmd ws :
  Forall (λ w, is_word w = true) ws → ws ≠ [] →
  Py.lstrip (cmd ws) = cmd ws.
Proof.
  unfold cmd. destruct 1 as [|w ws Hw _]; [done|]. intros _.
  apply is_word_inv in Hw as (c & t & -> & Hc & _).
  assert (∀ r, Py.lstrip (String c r) = String c r) as Hl.
  { intros r. cbn [Py.lstrip]. by rewrite Hc. }
  destruct ws as [|w' ws].
  - cbn [join]. rewrite (app_cons_str c t). apply Hl.
  - change (join (String c t :: w' :: ws))
      with (String c t +:+ " " +:+ join (w' :: ws)).
    rewrite app_assoc_str, (app_cons_str c t). apply Hl.
Qed.

(** A line made of words parses back to these words. *)
Lemma parse_cmd ws :
  Forall (λ w, is_word w = true) ws → ws ≠ [] →
  Py.split " " (Py.strip (cmd ws)) = ws.
Proof.
  intros Hws Hne. unfold Py.strip.
  by rewrite lstrip_cmd, rstrip_cmd, split_join.
Qed.

End parsing.

Lemma performCommand_cmd c args :
  Forall (λ w, is_word w = true) (c :: args) →
  performCommand (cmd (c :: args)) = (point_current ;; dispatch c (c :: args)).
Proof.
  intros Hw. unfold performCommand. by rewrite parse_cmd.
Qed.

(** ** Running the primitives *)

Ltac st_simpl :=
  unfold with_xcts, with_valueCounts, with_inTransac, with_currXct,
    with_currValCount, with_heapX, with_heapC, with_stdout;
  cbn [xcts valueCounts inTransac currXct currValCount heapX heapC stdout].

Lemma is_Some_true {A} (x : A) : bool_decide (is_Some (Some x)) = true.
Proof. by apply bool_decide_eq_true_2. Qed.
Lemma is_Some_false {A} : bool_decide (is_Some (@None A)) = false.
Proof. apply bool_decide_eq_false_2. by intros [? ?]. Qed.

Section run.
Context {A B : Type}.
Implicit Types (k : A → M B) (s : state).

Lemma run_bind (m : M A) k s a s' :
  m s = Ret a s' → bind m k s = k a s'.
Proof. unfold bind. by intros ->. Qed.

Lemma run_bind_raise (m : M A) k s e s' :
  m s = Raise e s' → bind m k s = Raise e s'.
Proof. unfold bind. by intros ->. Qed.
End run.

Lemma x_contains_run l n s d :
  heapX s !! l = Some d →
  x_contains l n s = Ret (bool_decide (is_Some (d !! n))) s.
Proof. unfold x_contains, bind, derefX. by intros ->. Qed.

Lemma x_getitem_run l n s d v :
  heapX s !! l = Some d → d !! n = Some v → x_getitem l n s = Ret v s.
Proof. unfold x_getitem, bind, derefX. by intros -> ->. Qed.

Lemma x_getitem_miss l n s d :
  heapX s !! l = Some d → d !! n = None → x_getitem l n s = Raise KeyError s.
Proof. unfold x_getitem, bind, derefX. by intros -> ->. Qed.

Lemma x_setitem_run l n v s d :
  heapX s !! l = Some d →
  x_setitem l n v s = Ret tt (with_heapX (<[l := <[n := v]> d]> (heapX s)) s).
Proof. unfold x_setitem, bind, derefX, storeX. intros H. by rewrite !H. Qed.

Lemma x_copy_run l s d :
  heapX s !! l = Some d →
  x_copy l s = Ret (length (heapX s)) (with_heapX (heapX s ++ [d]) s).
Proof. unfold x_copy, bind, derefX, newX. by intros ->. Qed.

Lemma c_contains_run l n s d :
  heapC s !! l = Some d →
  c_contains l n s = Ret (bool_decide (is_Some (d !! n))) s.
Proof. unfold c_contains, bind, derefC. by intros ->. Qed.

Lemma c_getitem_run l n s d v :
  heapC s !! l = Some d → d !! n = Some v → c_getitem l n s = Ret v s.
Proof. unfold c_getitem, bind, derefC. by intros -> ->. Qed.

Lemma c_getitem_miss l n s d :
  heapC s !! l = Some d → d !! n = None → c_getitem l n s = Raise KeyError s.
Proof. unfold c_getitem, bind, derefC. by intros -> ->. Qed.

Lemma c_setitem_run l n v s d :
  heapC s !! l = Some d →
  c_setitem l n v s = Ret tt (with_heapC (<[l := <[n := v]> d]> (heapC s)) s).
Proof. unfold c_setitem, bind, derefC, storeC. intros H. by rewrite !H. Qed.

Lemma c_copy_run l s d :
  heapC s !! l = Some d →
  c_copy l s = Ret (length (heapC s)) (with_heapC (heapC s ++ [d]) s).
Proof. unfold c_copy, bind, derefC, newC. by intros ->. Qed.

Lemma derefX_run l s d : heapX s !! l = Some d → derefX l s = Ret d s.
Proof. unfold derefX. by intros ->. Qed.
Lemma derefC_run l s d : heapC s !! l = Some d → derefC l s = Ret d s.
Proof. unfold derefC. by intros ->. Qed.

Lemma attr_run {A} (f : state → A) s : attr f s = Ret (f s) s.
Proof. done. Qed.
Lemma assign_run f s : assign f s = Ret tt (f s).
Proof. done. Qed.
Lemma write_run t s : write t s = Ret tt (with_stdout (stdout s ++ [t]) s).
Proof. done. Qed.
Lemma ret_run {A} (a : A) s : ret a s = Ret a s.
Proof. done. Qed.
Lemma skip_run s : skip s = Ret tt s.
Proof. done. Qed.

(** A cell that has just been written holds what was written. *)
Lemma heap_lookup_insert {V} (h : list V) l d d' :
  h !! l = Some d → <[l := d']> h !! l = Some d'.
Proof. intros H. apply list_lookup_insert_eq. eauto using lookup_lt_Some. Qed.

Ltac len := rewrite ?length_insert, ?length_app; simpl; lia.

Ltac heap_lookup :=
  st_simpl;
  first [ eassumption
        | apply list_lookup_middle; reflexivity
        | eapply heap_lookup_insert; heap_lookup
        | rewrite list_lookup_insert_eq by len; reflexivity
        | rewrite list_lookup_insert_ne by (done || len); heap_lookup
        | rewrite lookup_app_l by (len || (eapply lookup_lt_Some; eassumption));
          heap_lookup ].

Ltac run_prim :=
  first [ apply attr_run | apply assign_run | apply write_run
        | apply ret_run | apply skip_run
        | eapply x_contains_run; heap_lookup
        | eapply x_getitem_run; [heap_lookup | eassumption]
        | eapply x_setitem_run; heap_lookup
        | eapply x_copy_run; heap_lookup
        | eapply c_contains_run; heap_lookup
        | eapply c_getitem_run; [heap_lookup | eassumption]
        | eapply c_setitem_run; heap_lookup
        | eapply c_copy_run; heap_lookup
        | eapply derefX_run; heap_lookup
        | eapply derefC_run; heap_lookup ].

Lemma bind_bind {A B C} (m : M A) (f : A → M B) (k : B → M C) s :
  bind (bind m f) k s = bind m (λ a, bind (f a) k) s.
Proof. unfold bind. by destruct (m s). Qed.

(** One statement of a method body. *)
Ltac step :=
  first [ erewrite run_bind by run_prim | rewrite bind_bind
        | etrans; [run_prim|] ];
  cbv beta; st_simpl; rewrite ?is_Some_true, ?is_Some_false.
Ltac use_eqs :=
  repeat match goal with
         | H : ?l !! ?k = _ |- context [?l !! ?k] => rewrite H
         end.
Ltac bool_simpl :=
  rewrite ?is_Some_true, ?is_Some_false;
  repeat first [ rewrite bool_decide_true by (done || congruence)
               | rewrite bool_decide_false by (done || naive_solver) ];
  cbn [andb negb].
Ltac steps := repeat first [ step | progress use_eqs | progress bool_simpl ].

(** ** What the methods compute *)

Lemma set_run k v s m c :
  heapX s !! currXct s = Some m →
  heapC s !! currValCount s = Some c →
  set k v s =
  Ret tt (with_heapC (<[currValCount s := set_counts m c k v]> (heapC s))
         (with_heapX (<[currXct s := <[k := Some v]> m]> (heapX s)) s)).
Proof.
  destruct s as [xs vs t cx cc hx hc out]. st_simpl.
  intros Hm Hc.
  unfold set_counts, set, incr, decr, c_contains_obj, c_isub_obj, c_isub,
    c_iadd.
  destruct (m !! k) as [[old|]|] eqn:Hk.
  - destruct (decide (old = v)) as [->|Hne];
      [|destruct (c !! old) as [n|] eqn:Hold].
    + destruct (c !! v) eqn:Hv; steps; by rewrite ?list_insert_insert_eq.
    + destruct (<[old:=(n - 1)%Z]> c !! v) eqn:Hv; steps;
        by rewrite ?list_insert_insert_eq.
    + destruct (c !! v) eqn:Hv; steps; by rewrite ?list_insert_insert_eq.
  - destruct (c !! v) eqn:Hv; steps; by rewrite ?list_insert_insert_eq.
  - destruct (c !! v) eqn:Hv; steps; by rewrite ?list_insert_insert_eq.
Qed.

Lemma get_run k s m :
  heapX s !! currXct s = Some m →
  get k s = Ret tt (with_stdout (stdout s ++ [get_text m k]) s).
Proof.
  destruct s as [xs vs t cx cc hx hc out]. st_simpl.
  intros Hm. unfold get, get_text.
  destruct (m !! k) as [[v|]|] eqn:Hk; steps; done.
Qed.

Lemma unset_run_absent k s m :
  heapX s !! currXct s = Some m → m !! k = None →
  unset k s = Raise KeyError s.
Proof.
  intros Hm Hk. unfold unset. steps.
  apply run_bind_raise. by eapply x_getitem_miss.
Qed.

Lemma unset_run_none k s m :
  heapX s !! currXct s = Some m → m !! k = Some None →
  unset k s = Ret tt (with_heapX (<[currXct s := <[k := None]> m]> (heapX s)) s).
Proof.
  destruct s as [xs vs t cx cc hx hc out]. st_simpl.
  intros Hm Hk. unfold unset. steps. done.
Qed.

Lemma unset_run_some k s m c old n :
  heapX s !! currXct s = Some m → m !! k = Some (Some old) →
  heapC s !! currValCount s = Some c → c !! old = Some n →
  unset k s =
  Ret tt (with_heapC (<[currValCount s := <[old := (n - 1)%Z]> c]> (heapC s))
         (with_heapX (<[currXct s := <[k := None]> m]> (heapX s)) s)).
Proof.
  destruct s as [xs vs t cx cc hx hc out]. st_simpl.
  intros Hm Hk Hc Hold. unfold unset, c_isub. steps. done.
Qed.

Lemma unset_run_uncounted k s m c old :
  heapX s !! currXct s = Some m → m !! k = Some (Some old) →
  heapC s !! currValCount s = Some c → c !! old = None →
  unset k s =
  Raise KeyError (with_heapX (<[currXct s := <[k := None]> m]> (heapX s)) s).
Proof.
  destruct s as [xs vs t cx cc hx hc out]. st_simpl.
  intros Hm Hk Hc Hold. unfold unset, c_isub. steps.
  apply run_bind_raise. eapply c_getitem_miss; [heap_lookup|done].
Qed.

Lemma numEqualTo_run v s c :
  heapC s !! currValCount s = Some c →
  numEqualTo v s =
  Ret tt (with_stdout (stdout s ++ [Py.str_int (count_of c v); Py.nl]) s).
Proof.
  destruct s as [xs vs t cx cc hx hc out]. st_simpl.
  intros Hc. unfold numEqualTo, count_of.
  destruct (c !! v) as [n|] eqn:Hv; steps; by rewrite <- app_assoc.
Qed.

Lemma first_run l x s : l !! 0 = Some x → first l s = Ret x s.
Proof. unfold first. by intros ->. Qed.
Lemma top_run l x s : last l = Some x → top l s = Ret x s.
Proof. unfold top. by intros ->. Qed.
Lemma pop_run l s : l ≠ [] → pop l s = Ret (removelast l) s.
Proof. unfold pop. by destruct l. Qed.
Lemma field_run l i x s : l !! i = Some x → field l i s = Ret x s.
Proof. unfold field. by intros ->. Qed.

Ltac run_list :=
  first [ eapply first_run; st_simpl; eassumption
        | eapply top_run; st_simpl; eassumption
        | eapply pop_run; st_simpl; eassumption
        | eapply field_run; reflexivity ].

Ltac step_list := erewrite run_bind by run_list; cbv beta; st_simpl.
Ltac steps_all := repeat first [ step | step_list | progress use_eqs | progress bool_simpl ].

Lemma begin_run s x v m c :
  last (xcts s) = Some x → last (valueCounts s) = Some v →
  heapX s !! x = Some m → heapC s !! v = Some c →
  begin s =
  Ret tt (mkState (xcts s ++ [length (heapX s)])
                  (valueCounts s ++ [length (heapC s)])
                  true (currXct s) (currValCount s)
                  (heapX s ++ [m]) (heapC s ++ [c]) (stdout s)).
Proof.
  destruct s as [xs vs t cx cc hx hc out]. st_simpl.
  intros Hx Hv Hm Hc. unfold begin. steps_all. done.
Qed.

Lemma rollback_run_idle s :
  inTransac s = false →
  rollback s =
  Ret tt (with_stdout (stdout s ++ ["NO TRANSACTION" +:+ Py.nl]) s).
Proof.
  destruct s as [xs vs t cx cc hx hc out]. st_simpl.
  intros ->. unfold rollback. steps_all. done.
Qed.

Lemma rollback_run_pop s :
  inTransac s = true → xcts s ≠ [] → valueCounts s ≠ [] →
  rollback s =
  Ret tt (mkState (removelast (xcts s)) (removelast (valueCounts s))
                  (negb (bool_decide (removelast (xcts s) = [])))
                  (currXct s) (currValCount s)
                  (heapX s) (heapC s) (stdout s)).
Proof.
  destruct s as [xs vs t cx cc hx hc out]. st_simpl.
  intros -> Hx Hv. unfold rollback. steps_all.
  case_bool_decide; steps_all; done.
Qed.

Lemma commit_run_idle s :
  inTransac s = false →
  commit s =
  Ret tt (with_stdout (stdout s ++ ["NO TRANSACTION" +:+ Py.nl]) s).
Proof.
  destruct s as [xs vs t cx cc hx hc out]. st_simpl.
  intros ->. unfold commit. steps_all. done.
Qed.

Lemma commit_run s m c :
  inTransac s = true →
  heapX s !! currXct s = Some m → heapC s !! currValCount s = Some c →
  commit s =
  Ret tt (mkState [length (heapX s)] [length (heapC s)] false
                  (currXct s) (currValCount s)
                  (heapX s ++ [m]) (heapC s ++ [c]) (stdout s)).
Proof.
  destruct s as [xs vs t cx cc hx hc out]. st_simpl.
  intros -> Hm Hc. unfold commit. steps_all. done.
Qed.

Lemma point_current_run s x v :
  current s = Some (x, v) →
  point_current s = Ret tt (with_currValCount v (with_currXct x s)).
Proof.
  destruct s as [xs vs t cx cc hx hc out]. unfold current. st_simpl.
  intros H. unfold point_current. steps_all.
  destruct t; cbn [negb].
  - destruct (last xs) eqn:Hx, (last vs) eqn:Hv; simplify_eq. steps_all. done.
  - destruct (xs !! 0) eqn:Hx, (vs !! 0) eqn:Hv; simplify_eq. steps_all. done.
Qed.

Lemma point_current_fail s :
  current s = None → ∃ s', point_current s = Raise IndexError s'.
Proof.
  destruct s as [xs vs t cx cc hx hc out]. unfold current. st_simpl.
  intros H.
  cbv [point_current bind attr top first assign raise ret with_currXct
       with_currValCount xcts valueCounts inTransac negb].
  destruct t.
  - destruct (last xs); [destruct (last vs); [done|]|]; eauto.
  - destruct (xs !! 0); [destruct (vs !! 0); [done|]|]; eauto.
Qed.

(** ** Running one command line *)

Ltac words := repeat first [ apply Forall_cons_2 | apply Forall_nil_2 ];
              first [ reflexivity | assumption ].

Ltac open_cmd :=
  rewrite performCommand_cmd by words;
  erewrite run_bind by (apply point_current_run; eassumption);
  unfold dispatch, SET, GET, UNSET, NUMEQUALTO, END, BEGIN, ROLLBACK, COMMIT;
  repeat (rewrite decide_False by done); try (rewrite decide_True by done);
  st_simpl.

Section commands.
Context (s : state) (x v : loc) (m : snapshot) (c : counts).
Hypothesis Hcur : current s = Some (x, v).
Hypothesis Hm : heapX s !! x = Some m.
Hypothesis Hc : heapC s !! v = Some c.

Lemma perform_SET k val :
  is_word k = true → is_word val = true →
  performCommand (cmd [SET; k; val]) s =
  Ret tt (mkState (xcts s) (valueCounts s) (inTransac s) x v
                  (<[x := <[k := Some val]> m]> (heapX s))
                  (<[v := set_counts m c k val]> (heapC s)) (stdout s)).
Proof using Hcur Hm Hc.
  intros Hk Hval. open_cmd. steps_all.
  erewrite set_run by (st_simpl; eassumption). done.
Qed.

Lemma perform_GET k :
  is_word k = true →
  performCommand (cmd [GET; k]) s =
  Ret tt (mkState (xcts s) (valueCounts s) (inTransac s) x v
                  (heapX s) (heapC s) (stdout s ++ [get_text m k])).
Proof using Hcur Hm.
  intros Hk. open_cmd. steps_all.
  erewrite get_run by (st_simpl; eassumption). done.
Qed.

Lemma perform_NUMEQUALTO val :
  is_word val = true →
  performCommand (cmd [NUMEQUALTO; val]) s =
  Ret tt (mkState (xcts s) (valueCounts s) (inTransac s) x v
                  (heapX s) (heapC s)
                  (stdout s ++ [Py.str_int (count_of c val); Py.nl])).
Proof using Hcur Hc.
  intros Hk. open_cmd. steps_all.
  erewrite numEqualTo_run by (st_simpl; eassumption). done.
Qed.

Lemma perform_UNSET_absent k :
  is_word k = true → m !! k = None →
  performCommand (cmd [UNSET; k]) s =
  Raise KeyError (with_currValCount v (with_currXct x s)).
Proof using Hcur Hm.
  intros Hk Hno. open_cmd. steps_all.
  erewrite unset_run_absent by (st_simpl; eassumption). done.
Qed.

Lemma perform_UNSET_none k :
  is_word k = true → m !! k = Some None →
  performCommand (cmd [UNSET; k]) s =
  Ret tt (mkState (xcts s) (valueCounts s) (inTransac s) x v
                  (<[x := <[k := None]> m]> (heapX s)) (heapC s) (stdout s)).
Proof using Hcur Hm.
  intros Hk Hno. open_cmd. steps_all.
  erewrite unset_run_none by (st_simpl; eassumption). done.
Qed.

Lemma perform_UNSET_some k old n :
  is_word k = true → m !! k = Some (Some old) → c !! old = Some n →
  performCommand (cmd [UNSET; k]) s =
  Ret tt (mkState (xcts s) (valueCounts s) (inTransac s) x v
                  (<[x := <[k := None]> m]> (heapX s))
                  (<[v := <[old := (n - 1)%Z]> c]> (heapC s)) (stdout s)).
Proof using Hcur Hm Hc.
  intros Hk Hold Hn. open_cmd. steps_all.
  erewrite unset_run_some by (st_simpl; eassumption). done.
Qed.

Lemma perform_UNSET_uncounted k old :
  is_word k = true → m !! k = Some (Some old) → c !! old = None →
  performCommand (cmd [UNSET; k]) s =
  Raise KeyError
    (mkState (xcts s) (valueCounts s) (inTransac s) x v
             (<[x := <[k := None]> m]> (heapX s)) (heapC s) (stdout s)).
Proof using Hcur Hm Hc.
  intros Hk Hold Hn. open_cmd. steps_all.
  erewrite unset_run_uncounted by (st_simpl; eassumption). done.
Qed.

Lemma perform_ROLLBACK_idle :
  inTransac s = false →
  performCommand (cmd [ROLLBACK]) s =
  Ret tt (mkState (xcts s) (valueCounts s) false x v (heapX s) (heapC s)
                  (stdout s ++ ["NO TRANSACTION" +:+ Py.nl])).
Proof using Hcur.
  intros Ht. open_cmd.
  erewrite rollback_run_idle by (st_simpl; eassumption).
  st_simpl. by rewrite Ht.
Qed.

Lemma perform_COMMIT_idle :
  inTransac s = false →
  performCommand (cmd [COMMIT]) s =
  Ret tt (mkState (xcts s) (valueCounts s) false x v (heapX s) (heapC s)
                  (stdout s ++ ["NO TRANSACTION" +:+ Py.nl])).
Proof using Hcur.
  intros Ht. open_cmd.
  erewrite commit_run_idle by (st_simpl; eassumption).
  st_simpl. by rewrite Ht.
Qed.

Lemma perform_ROLLBACK_pop :
  inTransac s = true →
  performCommand (cmd [ROLLBACK]) s =
  Ret tt (mkState (removelast (xcts s)) (removelast (valueCounts s))
                  (negb (bool_decide (removelast (xcts s) = []))) x v
                  (heapX s) (heapC s) (stdout s)).
Proof using Hcur.
  intros Ht. open_cmd.
  assert (xcts s ≠ [] ∧ valueCounts s ≠ []) as [??].
  { unfold current in Hcur. rewrite Ht in Hcur.
    split; intros E; rewrite E in Hcur; simpl in Hcur;
      [done | by destruct (last (xcts s))]. }
  erewrite rollback_run_pop by (st_simpl; eassumption). done.
Qed.

Lemma perform_COMMIT_open :
  inTransac s = true →
  performCommand (cmd [COMMIT]) s =
  Ret tt (mkState [length (heapX s)] [length (heapC s)] false x v
                  (heapX s ++ [m]) (heapC s ++ [c]) (stdout s)).
Proof using Hcur Hm Hc.
  intros Ht. open_cmd.
  erewrite commit_run by (st_simpl; eassumption). done.
Qed.

Lemma perform_BEGIN x' v' m' c' :
  last (xcts s) = Some x' → last (valueCounts s) = Some v' →
  heapX s !! x' = Some m' → heapC s !! v' = Some c' →
  performCommand (cmd [BEGIN]) s =
  Ret tt (mkState (xcts s ++ [length (heapX s)])
                  (valueCounts s ++ [length (heapC s)]) true x v
                  (heapX s ++ [m']) (heapC s ++ [c']) (stdout s)).
Proof using Hcur.
  intros Hx Hv Hm' Hc'. open_cmd.
  erewrite begin_run by (st_simpl; eassumption). done.
Qed.

End commands.

(** ** The states the program reaches *)

Lemma covered_set m c k v :
  covered m c → covered (<[k := Some v]> m) (set_counts m c k v).
Proof.
  intros Hcov.
  assert (∀ c0 w, is_Some (c0 !! w) → is_Some (incr v c0 !! w)) as Hincr.
  { intros c0 w Hw. unfold incr.
    destruct (c0 !! v); (destruct (decide (v = w)) as [->|];
      [rewrite lookup_insert_eq; eauto | by rewrite lookup_insert_ne]). }
  assert (∀ o w, is_Some (c !! w) → is_Some (decr o c !! w)) as Hdecr.
  { intros o w Hw. unfold decr. destruct (c !! o) eqn:Ho; [|done].
    destruct (decide (o = w)) as [->|];
      [rewrite lookup_insert_eq; eauto | by rewrite lookup_insert_ne]. }
  assert (∀ c0 : counts, is_Some (incr v c0 !! v)) as Hnew.
  { intros c0. unfold incr.
    destruct (c0 !! v); rewrite lookup_insert_eq; eauto. }
  intros k' w Hk'. unfold set_counts.
  destruct (decide (k = k')) as [->|Hne].
  - rewrite lookup_insert_eq in Hk'. simplify_eq. apply Hnew.
  - rewrite lookup_insert_ne in Hk' by done.
    apply Hincr. specialize (Hcov _ _ Hk').
    destruct (m !! k) as [[old|]|]; [case_bool_decide|..]; eauto.
Qed.

Lemma covered_unset m c k : covered m c → covered (<[k := None]> m) c.
Proof.
  intros H k' w Hk'. destruct (decide (k = k')) as [->|Hne].
  - by rewrite lookup_insert_eq in Hk'.
  - rewrite lookup_insert_ne in Hk' by done. eauto.
Qed.

Lemma covered_decr m c o n :
  covered m c → covered m (<[o := n]> c).
Proof.
  intros H k' w Hk'. destruct (decide (o = w)) as [->|Hne].
  - rewrite lookup_insert_eq. eauto.
  - rewrite lookup_insert_ne by done. eauto.
Qed.

Lemma inv_init : inv init.
Proof.
  split; simpl.
  - done.
  - lia.
  - apply NoDup_singleton.
  - apply NoDup_singleton.
  - intros x ->%list_elem_of_singleton. lia.
  - intros x ->%list_elem_of_singleton. lia.
  - intros [|i] x v m c ?????; simplify_eq/=. done.
Qed.

Section invariant.
Context (s : state) (Hs : inv s).

(** Only the stacks, the flag and the dictionaries matter. *)
Lemma inv_frame cx cc out :
  inv (mkState (xcts s) (valueCounts s) (inTransac s) cx cc
               (heapX s) (heapC s) out).
Proof using Hs. by destruct Hs. Qed.

Lemma top_layer x v :
  last (xcts s) = Some x → last (valueCounts s) = Some v →
  ∃ i, xcts s !! i = Some x ∧ valueCounts s !! i = Some v.
Proof using Hs.
  rewrite !last_lookup, <- (inv_length s Hs). eauto.
Qed.

Lemma current_layer x v :
  current s = Some (x, v) →
  ∃ i, xcts s !! i = Some x ∧ valueCounts s !! i = Some v.
Proof using Hs.
  unfold current. destruct (inTransac s).
  - destruct (last _) eqn:Hx, (last (valueCounts s)) eqn:Hv; intros; simplify_eq.
    by apply top_layer.
  - destruct (_ !! 0) eqn:Hx, (valueCounts s !! 0) eqn:Hv; intros; simplify_eq.
    eauto.
Qed.

Lemma layer_contents i x v :
  xcts s !! i = Some x → valueCounts s !! i = Some v →
  ∃ m c, heapX s !! x = Some m ∧ heapC s !! v = Some c ∧ covered m c.
Proof using Hs.
  intros Hx Hv.
  destruct (lookup_lt_is_Some_2 (heapX s) x) as [m Hm].
  { eapply inv_allocX, list_elem_of_lookup_2; eauto. }
  destruct (lookup_lt_is_Some_2 (heapC s) v) as [c Hc].
  { eapply inv_allocC, list_elem_of_lookup_2; eauto. }
  exists m, c. split_and!; [done..|]. by eapply inv_covered.
Qed.

Lemma current_is_Some : xcts s ≠ [] → is_Some (current s).
Proof using Hs.
  intros Hne. unfold current.
  assert (valueCounts s ≠ []) as Hne'.
  { intros E. apply Hne, nil_length_inv. by rewrite (inv_length s Hs), E. }
  destruct (inTransac s).
  - apply last_is_Some in Hne as [? ->], Hne' as [? ->]. eauto.
  - destruct (xcts s), (valueCounts s); naive_solver.
Qed.

(** Writing the pair at one height. *)
Lemma inv_update i x v m' c' cx cc out :
  xcts s !! i = Some x → valueCounts s !! i = Some v →
  covered m' c' →
  inv (mkState (xcts s) (valueCounts s) (inTransac s) cx cc
               (<[x := m']> (heapX s)) (<[v := c']> (heapC s)) out).
Proof using Hs.
  intros Hx Hv Hcov. destruct Hs as [Hlen Hidle HndX HndC HaX HaC Hc].
  split; simpl; try done.
  - intros y Hy. rewrite length_insert. auto.
  - intros y Hy. rewrite length_insert. auto.
  - intros j y w m c Hy Hw Hm Hcc.
    destruct (decide (i = j)) as [->|Hij].
    + simplify_eq.
      rewrite list_lookup_insert_eq in Hm
        by (eapply HaX, list_elem_of_lookup_2; eauto).
      rewrite list_lookup_insert_eq in Hcc
        by (eapply HaC, list_elem_of_lookup_2; eauto).
      by simplify_eq.
    + assert (x ≠ y) by (intros ->; eauto using NoDup_lookup).
      assert (v ≠ w) by (intros ->; eauto using NoDup_lookup).
      rewrite list_lookup_insert_ne in Hm by done.
      rewrite list_lookup_insert_ne in Hcc by done.
      eauto.
Qed.

End invariant.

Lemma snoc_cases {A} (l : list A) : l = [] ∨ ∃ l' x, l = l' ++ [x].
Proof. induction l using rev_ind; eauto. Qed.

Section invariant_stack.
Context (s : state) (Hs : inv s).

(** [begin]: a copy of the top pair goes on top. *)
Lemma inv_push x v m c cx cc out :
  last (xcts s) = Some x → last (valueCounts s) = Some v →
  heapX s !! x = Some m → heapC s !! v = Some c →
  inv (mkState (xcts s ++ [length (heapX s)])
               (valueCounts s ++ [length (heapC s)]) true cx cc
               (heapX s ++ [m]) (heapC s ++ [c]) out).
Proof using Hs.
  intros Hx Hv Hm Hc.
  destruct (top_layer s Hs x v Hx Hv) as (t & Htx & Htv).
  destruct Hs as [Hlen Hidle HndX HndC HaX HaC Hcov].
  assert (∀ (l : list loc) n, (∀ y, y ∈ l → (y < n)%nat) → NoDup l →
            NoDup (l ++ [n])) as Hnd.
  { intros l n Hl Hn. apply NoDup_app. split_and!; [done| |apply NoDup_singleton].
    intros y Hy ->%list_elem_of_singleton. apply Hl in Hy. lia. }
  assert (∀ (l : list loc) n y, (∀ y, y ∈ l → (y < n)%nat) →
            y ∈ l ++ [n] → (y < S n)%nat) as Hal.
  { intros l n y Hl [Hy| ->%list_elem_of_singleton]%elem_of_app; [|lia].
    apply Hl in Hy. lia. }
  split; simpl.
  - rewrite !length_app. simpl. lia.
  - done.
  - by apply Hnd.
  - by apply Hnd.
  - intros y Hy. rewrite length_app. simpl.
    rewrite Nat.add_1_r. by eapply Hal.
  - intros y Hy. rewrite length_app. simpl.
    rewrite Nat.add_1_r. by eapply Hal.
  - intros i y w m0 c0 Hy Hw Hm0 Hc0.
    destruct (decide (i < length (xcts s))%nat) as [Hi|Hi].
    + rewrite lookup_app_l in Hy by done.
      rewrite lookup_app_l in Hw by lia.
      rewrite lookup_app_l in Hm0
        by (eapply HaX, list_elem_of_lookup_2; eauto).
      rewrite lookup_app_l in Hc0
        by (eapply HaC, list_elem_of_lookup_2; eauto).
      eauto.
    + rewrite lookup_app_r in Hy by lia.
      rewrite lookup_app_r in Hw by lia.
      rewrite Hlen in Hy at 1.
      destruct (i - length (valueCounts s))%nat as [|?]; [|done].
      simpl in Hy, Hw. simplify_eq.
      rewrite list_lookup_middle in Hm0 by done.
      rewrite list_lookup_middle in Hc0 by done.
      simplify_eq. eauto.
Qed.

(** [commit]: a copy of the current pair is all that is left. *)
Lemma inv_flatten i x v m c cx cc out :
  xcts s !! i = Some x → valueCounts s !! i = Some v →
  heapX s !! x = Some m → heapC s !! v = Some c →
  inv (mkState [length (heapX s)] [length (heapC s)] false cx cc
               (heapX s ++ [m]) (heapC s ++ [c]) out).
Proof using Hs.
  intros Hx Hv Hm Hc.
  assert (covered m c) as Hcov by (by eapply inv_covered).
  split; simpl.
  - done.
  - lia.
  - apply NoDup_singleton.
  - apply NoDup_singleton.
  - intros y ->%list_elem_of_singleton. rewrite length_app. simpl. lia.
  - intros y ->%list_elem_of_singleton. rewrite length_app. simpl. lia.
  - intros [|j] y w m0 c0 Hy Hw Hm0 Hc0; simplify_eq/=.
    rewrite list_lookup_middle in Hm0 by done.
    rewrite list_lookup_middle in Hc0 by done.
    by simplify_eq.
Qed.

(** [rollback]: both stacks lose their last element. *)
Lemma inv_pop cx cc out :
  inv (mkState (removelast (xcts s)) (removelast (valueCounts s))
               (negb (bool_decide (removelast (xcts s) = []))) cx cc
               (heapX s) (heapC s) out).
Proof using Hs.
  destruct Hs as [Hlen Hidle HndX HndC HaX HaC Hcov].
  destruct (snoc_cases (xcts s)) as [Ex|(xs0 & x0 & Ex)];
    destruct (snoc_cases (valueCounts s)) as [Ev|(vs0 & v0 & Ev)];
    rewrite Ex, Ev in *; clear Ex Ev;
    rewrite ?length_app in Hlen; simpl in Hlen; try lia.
  { split; simpl; try done. intros _. lia. }
  rewrite !removelast_last.
  apply NoDup_app in HndX as (HndX & _ & _).
  apply NoDup_app in HndC as (HndC & _ & _).
  split; simpl; try done.
  - lia.
  - intros Hb. apply negb_false_iff, bool_decide_eq_true in Hb as ->.
    simpl. lia.
  - intros y Hy. apply HaX. set_solver.
  - intros y Hy. apply HaC. set_solver.
  - intros i y w m c Hy Hw. apply (Hcov i).
    + by apply lookup_app_l_Some.
    + by apply lookup_app_l_Some.
Qed.

End invariant_stack.

Lemma split_cons sep t : ∃ c rest, Py.split sep t = c :: rest.
Proof.
  induction t as [|a t (c & rest & IH)]; simpl; [eauto|].
  rewrite IH. destruct (decide (a = sep)); eauto.
Qed.

Lemma bind_field {B} l i (k : string → M B) s :
  bind (field l i) k s =
  match l !! i with Some w => k w s | None => Raise IndexError s end.
Proof. unfold bind, field. by destruct (l !! i). Qed.

Lemma performCommand_fields line c rest s :
  fields line = c :: rest →
  performCommand line s = (point_current ;; dispatch c (c :: rest)) s.
Proof.
  unfold fields, performCommand. intros ->. by rewrite bind_field.
Qed.

(** Every command line returns in a state where the invariant holds again,
    or raises an exception; it never follows a reference that was not
    allocated. *)
Lemma performCommand_outcome line s :
  inv s →
  (∃ s', performCommand line s = Ret tt s' ∧ inv s') ∨
  (∃ e s', performCommand line s = Raise e s').
Proof.
  intros Hs. unfold performCommand.
  destruct (split_cons " " (Py.strip line)) as (cw & rest & ->).
  rewrite bind_field. cbn [lookup list_lookup].
  destruct (current s) as [[x v]|] eqn:Hcur.
  2: { destruct (point_current_fail s Hcur) as [s0 E].
       right. exists IndexError, s0. by apply run_bind_raise. }
  erewrite run_bind by (by apply point_current_run).
  destruct (current_layer s Hs x v Hcur) as (i & Hx & Hv).
  destruct (layer_contents s Hs i x v Hx Hv) as (m & c & Hm & Hc & Hcov).
  assert (∃ x' v' m' c', last (xcts s) = Some x' ∧
            last (valueCounts s) = Some v' ∧ heapX s !! x' = Some m' ∧
            heapC s !! v' = Some c') as (x' & v' & m' & c' & Hx' & Hv' & Hm' & Hc').
  { destruct (last (xcts s)) as [x'|] eqn:Hx'.
    2: { apply last_None in Hx'. by rewrite Hx' in Hx. }
    destruct (last (valueCounts s)) as [v'|] eqn:Hv'.
    2: { apply last_None in Hv'. by rewrite Hv' in Hv. }
    destruct (top_layer s Hs x' v' Hx' Hv') as (j & Hjx & Hjv).
    destruct (layer_contents s Hs j x' v' Hjx Hjv) as (m' & c' & ? & ? & _).
    by exists x', v', m', c'. }
  unfold dispatch. repeat case_decide.
  - erewrite begin_run by (st_simpl; eassumption).
    left. eexists. split; [done|]. st_simpl. by eapply inv_push.
  - destruct (inTransac s) eqn:Ht.
    + erewrite rollback_run_pop; st_simpl; try done.
      * left. eexists. split; [done|]. by apply inv_pop.
      * intros E. by rewrite E in Hx.
      * intros E. by rewrite E in Hv.
    + erewrite rollback_run_idle by done.
      left. eexists. split; [done|]. st_simpl.
      rewrite <- Ht. by apply inv_frame.
  - destruct (inTransac s) eqn:Ht.
    + erewrite commit_run by (st_simpl; eassumption).
      left. eexists. split; [done|]. st_simpl. by eapply inv_flatten.
    + erewrite commit_run_idle by done.
      left. eexists. split; [done|]. st_simpl.
      rewrite <- Ht. by apply inv_frame.
  - rewrite bind_field. destruct (_ !! 1) as [k|]; [|by eauto].
    rewrite bind_field. destruct (_ !! 2) as [val|]; [|by eauto].
    erewrite set_run by (st_simpl; eassumption).
    left. eexists. split; [done|]. st_simpl.
    eapply inv_update; eauto using covered_set.
  - rewrite bind_field. destruct (_ !! 1) as [k|]; [|by eauto].
    erewrite get_run by (st_simpl; eassumption).
    left. eexists. split; [done|]. st_simpl. by apply inv_frame.
  - rewrite bind_field. destruct (_ !! 1) as [k|]; [|by eauto].
    destruct (m !! k) as [[old|]|] eqn:Hk.
    + destruct (Hcov _ _ Hk) as [n Hn].
      erewrite unset_run_some by (st_simpl; eassumption).
      left. eexists. split; [done|]. st_simpl.
      eapply inv_update; eauto using covered_unset, covered_decr.
    + erewrite unset_run_none by (st_simpl; eassumption).
      left. eexists. split; [done|]. st_simpl.
      rewrite <- (list_insert_id (heapC s) v c) by done.
      eapply inv_update; eauto using covered_unset.
    + erewrite unset_run_absent by (st_simpl; eassumption). by eauto.
  - rewrite bind_field. destruct (_ !! 1) as [val|]; [|by eauto].
    erewrite numEqualTo_run by (st_simpl; eassumption).
    left. eexists. split; [done|]. st_simpl. by apply inv_frame.
  - right. by exists SystemExit, (with_currValCount v (with_currXct x s)).
  - rewrite write_run. left. eexists. split; [done|].
    st_simpl. by apply inv_frame.
Qed.

Lemma performCommand_inv line s s' :
  inv s → performCommand line s = Ret tt s' → inv s'.
Proof.
  intros Hs Hrun.
  destruct (performCommand_outcome line s Hs)
    as [(s1 & Hs1 & Hinv)|(e & s1 & Hs1)];
    rewrite Hs1 in Hrun; by simplify_eq.
Qed.

Lemma reachable_inv s : reachable s → inv s.
Proof.
  induction 1; eauto using inv_init, performCommand_inv.
Qed.

(** No reachable state leads a command to a reference that was never
    allocated. *)
Lemma reachable_not_dangling s line :
  reachable s → performCommand line s ≠ Dangling.
Proof.
  intros Hs%reachable_inv.
  destruct (performCommand_outcome line s Hs)
    as [(s1 & -> & _)|(e & s1 & ->)]; done.
Qed.

(** ** The read loop *)

Lemma cmd_nonempty ws : cmd ws ≠ "".
Proof. unfold cmd. by intros [_ ?]%app_empty_str. Qed.

Lemma main_loop_cons line rest s s1 :
  line ≠ "" → performCommand line s = Ret tt s1 →
  main_loop (line :: rest) s = main_loop rest s1.
Proof.
  intros Hne Hrun. cbn [main_loop]. rewrite decide_False by done.
  by erewrite run_bind by exact Hrun.
Qed.

Lemma main_loop_raise line rest s e s1 :
  line ≠ "" → performCommand line s = Raise e s1 →
  main_loop (line :: rest) s = Raise e s1.
Proof.
  intros Hne Hrun. cbn [main_loop]. rewrite decide_False by done.
  by erewrite run_bind_raise by exact Hrun.
Qed.

(** In a state the program reaches, the current pair is the top pair. *)
Lemma current_top s x v :
  inv s → current s = Some (x, v) →
  last (xcts s) = Some x ∧ last (valueCounts s) = Some v.
Proof.
  intros Hs. unfold current. destruct (inTransac s) eqn:Ht.
  - destruct (last (xcts s)), (last (valueCounts s)); intros; by simplify_eq.
  - pose proof (inv_idle s Hs Ht) as Hle. pose proof (inv_length s Hs) as Hlen.
    destruct (xcts s) as [|x0 [|??]], (valueCounts s) as [|v0 [|??]];
      simpl in *; try lia; intros; by simplify_eq.
Qed.

(** ** Properties *)

(** C4. With no transaction open, ROLLBACK and COMMIT each write
    NO TRANSACTION and leave both stacks, the dictionaries and the flag as
    they were, however many times and in whatever order they are sent. *)
Theorem no_transaction_error_path s lines :
  inTransac s = false → xcts s ≠ [] → valueCounts s ≠ [] →
  Forall (λ l, l = cmd [ROLLBACK] ∨ l = cmd [COMMIT]) lines →
  ∃ s', main_loop lines s = Ret tt s' ∧
        xcts s' = xcts s ∧ valueCounts s' = valueCounts s ∧
        inTransac s' = false ∧
        heapX s' = heapX s ∧ heapC s' = heapC s ∧
        stdout s' =
          stdout s ++ replicate (length lines) ("NO TRANSACTION" +:+ Py.nl).
Proof.
  revert s. induction lines as [|line lines IH]; intros s Ht Hx Hv Hlines.
  - exists s. simpl. by rewrite app_nil_r.
  - apply Forall_cons in Hlines as [Hline Hlines].
    assert (∃ x v, current s = Some (x, v)) as (x & v & Hcur).
    { unfold current. rewrite Ht.
      destruct (xcts s) as [|x0 ?]; [done|].
      destruct (valueCounts s) as [|v0 ?]; [done|]. by exists x0, v0. }
    set (s1 := mkState (xcts s) (valueCounts s) false x v (heapX s)
                 (heapC s) (stdout s ++ ["NO TRANSACTION" +:+ Py.nl])).
    assert (performCommand line s = Ret tt s1) as Hrun.
    { destruct Hline as [E|E]; rewrite E;
        eauto using perform_ROLLBACK_idle, perform_COMMIT_idle. }
    assert (line ≠ "") as Hne
      by (destruct Hline as [E|E]; rewrite E; apply cmd_nonempty).
    rewrite (main_loop_cons _ _ _ _ Hne Hrun).
    destruct (IH s1) as (s' & -> & ? & ? & ? & ? & ? & Hout); [done..|].
    exists s'. split_and!; try done.
    rewrite Hout. simpl. by rewrite <- app_assoc.
Qed.

Lemma no_transaction_error_path_witness :
  ∃ s', main_loop [cmd [ROLLBACK]; cmd [COMMIT]; cmd [ROLLBACK]] init = Ret tt s' ∧
        xcts s' = xcts init ∧ valueCounts s' = valueCounts init ∧
        inTransac s' = false ∧
        heapX s' = heapX init ∧ heapC s' = heapC init ∧
        stdout s' =
          stdout init ++ replicate 3 ("NO TRANSACTION" +:+ Py.nl).
Proof.
  apply (no_transaction_error_path init
           [cmd [ROLLBACK]; cmd [COMMIT]; cmd [ROLLBACK]]).
  - reflexivity.
  - discriminate.
  - discriminate.
  - apply Forall_cons_2; [by left|].
    apply Forall_cons_2; [by right|].
    apply Forall_cons_2; [by left|].
    apply Forall_nil_2.
Defined.

(** Facts about a reachable state with a layer, gathered once. *)
Lemma reachable_layer s :
  reachable s → xcts s ≠ [] →
  ∃ x v m c,
    current s = Some (x, v) ∧
    last (xcts s) = Some x ∧ last (valueCounts s) = Some v ∧
    heapX s !! x = Some m ∧ heapC s !! v = Some c ∧ covered m c.
Proof.
  intros Hs%reachable_inv Hne.
  destruct (current_is_Some s Hs Hne) as [[x v] Hcur].
  destruct (current_layer s Hs x v Hcur) as (i & Hx & Hv).
  destruct (layer_contents s Hs i x v Hx Hv) as (m & c & Hm & Hc & Hcov).
  destruct (current_top s x v Hs Hcur) as [Hlx Hlv].
  by exists x, v, m, c.
Qed.

Ltac cur_solve :=
  unfold current; st_simpl; rewrite ?removelast_last, ?last_snoc;
  try rewrite bool_decide_false by done; cbn [negb];
  repeat match goal with
         | H : last ?l = Some _ |- context [last ?l] => rewrite H
         end;
  first [ reflexivity | eassumption ].

Ltac side :=
  st_simpl; first [ assumption | eassumption | cur_solve | heap_lookup ].

Ltac next_cmd lem :=
  erewrite main_loop_cons; [ | apply cmd_nonempty | eapply lem; side ];
  st_simpl; rewrite ?removelast_last;
  try rewrite bool_decide_false by done; cbn [negb].

(** C5. After SET k v1, the commands BEGIN, SET k v2, ROLLBACK, GET k make
    GET write v1: the rollback brings back the binding of k. *)
Theorem rollback_restores_binding s k v1 v2 :
  reachable s → xcts s ≠ [] →
  is_word k = true → is_word v1 = true → is_word v2 = true →
  ∃ s', main_loop [cmd [SET; k; v1]; cmd [BEGIN]; cmd [SET; k; v2];
                   cmd [ROLLBACK]; cmd [GET; k]] s = Ret tt s' ∧
        stdout s' = stdout s ++ [v1 +:+ Py.nl].
Proof.
  intros Hr Hne Hk Hv1 Hv2.
  destruct (reachable_layer s Hr Hne)
    as (x & v & m & c & Hcur & Hlx & Hlv & Hm & Hc & _).
  assert (x < length (heapX s)) as Hx by eauto using lookup_lt_Some.
  assert (v < length (heapC s)) as Hv by eauto using lookup_lt_Some.
  next_cmd perform_SET.
  next_cmd perform_BEGIN.
  next_cmd perform_SET.
  next_cmd perform_ROLLBACK_pop.
  next_cmd perform_GET.
  eexists. split; [reflexivity|]. st_simpl.
  unfold get_text. by rewrite lookup_insert_eq.
Qed.

Lemma rollback_restores_binding_witness :
  ∃ s', main_loop [cmd [SET; "k"; "old"]; cmd [BEGIN]; cmd [SET; "k"; "new"];
                   cmd [ROLLBACK]; cmd [GET; "k"]] init = Ret tt s' ∧
        stdout s' = stdout init ++ ["old" +:+ Py.nl].
Proof.
  apply (rollback_restores_binding init "k" "old" "new").
  - apply reach_init.
  - discriminate.
  - reflexivity.
  - reflexivity.
  - reflexivity.
Defined.

(** C6. BEGIN, SET a 10, BEGIN, SET a 20, COMMIT, GET a makes GET write 20
    and leaves stacks of one layer, which binds a to 20, with no
    transaction open: a ROLLBACK sent next writes NO TRANSACTION and
    changes neither stack.  This holds from every state the program
    reaches that still has a layer, in particular outside a transaction. *)
Theorem commit_flattens s :
  reachable s → xcts s ≠ [] →
  ∃ s' s'' x v m,
    main_loop [cmd [BEGIN]; cmd [SET; "a"; "10"]; cmd [BEGIN];
               cmd [SET; "a"; "20"]; cmd [COMMIT]; cmd [GET; "a"]] s
      = Ret tt s' ∧
    stdout s' = stdout s ++ ["20" +:+ Py.nl] ∧
    xcts s' = [x] ∧ valueCounts s' = [v] ∧ inTransac s' = false ∧
    heapX s' !! x = Some m ∧ m !! "a" = Some (Some "20") ∧
    performCommand (cmd [ROLLBACK]) s' = Ret tt s'' ∧
    stdout s'' = stdout s' ++ ["NO TRANSACTION" +:+ Py.nl] ∧
    xcts s'' = xcts s' ∧ valueCounts s'' = valueCounts s' ∧
    inTransac s'' = false.
Proof.
  intros Hr Hne.
  destruct (reachable_layer s Hr Hne)
    as (x & v & m & c & Hcur & Hlx & Hlv & Hm & Hc & _).
  assert (x < length (heapX s)) as Hx by eauto using lookup_lt_Some.
  assert (v < length (heapC s)) as Hv by eauto using lookup_lt_Some.
  next_cmd perform_BEGIN.
  next_cmd perform_SET.
  next_cmd perform_BEGIN.
  next_cmd perform_SET.
  next_cmd perform_COMMIT_open.
  next_cmd perform_GET.
  eexists _, _, _, _, _. split; [reflexivity|]. st_simpl.
  split_and!.
  - unfold get_text. by rewrite lookup_insert_eq.
  - reflexivity.
  - reflexivity.
  - reflexivity.
  - apply list_lookup_middle. reflexivity.
  - apply lookup_insert_eq.
  - eapply perform_ROLLBACK_idle; [cur_solve|reflexivity].
  - reflexivity.
  - reflexivity.
  - reflexivity.
  - reflexivity.
Qed.

Lemma commit_flattens_witness :
  ∃ s' s'' x v m,
    main_loop [cmd [BEGIN]; cmd [SET; "a"; "10"]; cmd [BEGIN];
               cmd [SET; "a"; "20"]; cmd [COMMIT]; cmd [GET; "a"]] init
      = Ret tt s' ∧
    stdout s' = stdout init ++ ["20" +:+ Py.nl] ∧
    xcts s' = [x] ∧ valueCounts s' = [v] ∧ inTransac s' = false ∧
    heapX s' !! x = Some m ∧ m !! "a" = Some (Some "20") ∧
    performCommand (cmd [ROLLBACK]) s' = Ret tt s'' ∧
    stdout s'' = stdout s' ++ ["NO TRANSACTION" +:+ Py.nl] ∧
    xcts s'' = xcts s' ∧ valueCounts s'' = valueCounts s' ∧
    inTransac s'' = false.
Proof.
  apply (commit_flattens init).
  - apply reach_init.
  - discriminate.
Defined.

Lemma insert_snoc {V} (h : list V) d d' :
  <[length h := d']> (h ++ [d]) = h ++ [d'].
Proof.
  rewrite insert_app_r_alt by lia. by rewrite Nat.sub_diag.
Qed.

Section copy_on_push.
Context (s : state).

Lemma update_pushed_on t line :
  pushed_on s t → is_update line →
  ∃ t', final (performCommand line t) = Some t' ∧ pushed_on s t'.
Proof.
  intros (Hx & Hv & Ht & m & c & Hm & Hc) Hline.
  assert (current t = Some (length (heapX s), length (heapC s))) as Hcur.
  { unfold current. by rewrite Ht, Hx, Hv, !last_snoc. }
  assert (heapX t !! length (heapX s) = Some m) as Hlm.
  { rewrite Hm. by apply list_lookup_middle. }
  assert (heapC t !! length (heapC s) = Some c) as Hlc.
  { rewrite Hc. by apply list_lookup_middle. }
  destruct (split_cons " " (Py.strip line)) as (cw & rest & Hf).
  fold (fields line) in Hf. unfold is_update in Hline.
  rewrite Hf in Hline. cbn [hd] in Hline.
  rewrite (performCommand_fields _ _ _ _ Hf).
  erewrite run_bind by (by apply point_current_run).
  assert (pushed_on s (with_currValCount (length (heapC s))
                         (with_currXct (length (heapX s)) t))) as Hidle.
  { unfold pushed_on. st_simpl. eauto 10. }
  unfold dispatch, SET, UNSET, GET, BEGIN, ROLLBACK, COMMIT in *.
  destruct Hline as [->| ->];
    repeat (rewrite decide_False by done); rewrite decide_True by done.
  - rewrite bind_field. destruct (_ !! 1) as [k|]; [|by eexists].
    rewrite bind_field. destruct (_ !! 2) as [val|]; [|by eexists].
    erewrite set_run by (st_simpl; eassumption). eexists. split; [done|].
    unfold pushed_on. st_simpl. rewrite Hm, Hc, !insert_snoc. eauto 10.
  - rewrite bind_field. destruct (_ !! 1) as [k|]; [|by eexists].
    destruct (m !! k) as [[old|]|] eqn:Hmk.
    + destruct (c !! old) as [n|] eqn:Hco.
      * erewrite unset_run_some by (st_simpl; eassumption).
        eexists. split; [done|].
        unfold pushed_on. st_simpl. rewrite Hm, Hc, !insert_snoc. eauto 10.
      * erewrite unset_run_uncounted by (st_simpl; eassumption).
        eexists. split; [done|].
        unfold pushed_on. st_simpl. rewrite Hm, !insert_snoc. eauto 10.
    + erewrite unset_run_none by (st_simpl; eassumption).
      eexists. split; [done|].
      unfold pushed_on. st_simpl. rewrite Hm, !insert_snoc. eauto 10.
    + erewrite unset_run_absent by (st_simpl; eassumption).
      eexists. split; [done|]. done.
Qed.

Lemma updates_pushed_on lines t :
  pushed_on s t → Forall is_update lines →
  ∃ t', final (main_loop lines t) = Some t' ∧ pushed_on s t'.
Proof.
  revert t. induction lines as [|line lines IH]; intros t Ht Hlines.
  - by exists t.
  - apply Forall_cons in Hlines as [Hline Hlines].
    assert (line ≠ "") as Hne.
    { intros ->. by destruct Hline. }
    destruct (update_pushed_on t line Ht Hline) as (t1 & Hfin & Ht1).
    destruct (performCommand line t) as [[] t2|e t2|] eqn:Hrun;
      simpl in Hfin; simplify_eq.
    + rewrite (main_loop_cons _ _ _ _ Hne Hrun). by apply IH.
    + rewrite (main_loop_raise _ _ _ _ _ Hne Hrun). by exists t1.
Qed.

End copy_on_push.

(** C7. Once BEGIN has pushed its copy, no sequence of SET and UNSET
    commands changes a layer below it: every position of the stacks that
    existed before BEGIN still refers to the same two dictionaries, and
    these hold what they held, also when one of the commands stops the
    program (an UNSET of an absent name, a missing argument). *)
Theorem begin_copy_isolated s lines :
  reachable s → xcts s ≠ [] → Forall is_update lines →
  ∃ s1 s2,
    performCommand (cmd [BEGIN]) s = Ret tt s1 ∧
    final (main_loop lines s1) = Some s2 ∧
    ∀ i x v, xcts s !! i = Some x → valueCounts s !! i = Some v →
      xcts s2 !! i = Some x ∧ valueCounts s2 !! i = Some v ∧
      heapX s2 !! x = heapX s !! x ∧ heapC s2 !! v = heapC s !! v.
Proof.
  intros Hr Hne Hlines.
  destruct (reachable_layer s Hr Hne)
    as (x & v & m & c & Hcur & Hlx & Hlv & Hm & Hc & _).
  apply reachable_inv in Hr as Hs.
  set (s1 := mkState (xcts s ++ [length (heapX s)])
                     (valueCounts s ++ [length (heapC s)]) true x v
                     (heapX s ++ [m]) (heapC s ++ [c]) (stdout s)).
  assert (pushed_on s s1) as Hs1.
  { unfold pushed_on. split_and!; try reflexivity. by exists m, c. }
  destruct (updates_pushed_on s lines s1 Hs1 Hlines) as (s2 & Hfin & Hs2).
  exists s1, s2. split_and!; [|done|].
  { by apply (perform_BEGIN s x v Hcur x v m c). }
  destruct Hs2 as (Hx2 & Hv2 & _ & m2 & c2 & Hm2 & Hc2).
  intros i y w Hy Hw. rewrite Hx2, Hv2, Hm2, Hc2.
  split_and!.
  - by apply lookup_app_l_Some.
  - by apply lookup_app_l_Some.
  - apply lookup_app_l. eapply inv_allocX, list_elem_of_lookup_2; eauto.
  - apply lookup_app_l. eapply inv_allocC, list_elem_of_lookup_2; eauto.
Qed.

Lemma begin_copy_isolated_witness :
  ∃ s1 s2,
    performCommand (cmd [BEGIN]) init = Ret tt s1 ∧
    final (main_loop [cmd [SET; "a"; "1"]; cmd [UNSET; "a"];
                      cmd [SET; "b"; "2"]; cmd [UNSET; "c"]] s1) = Some s2 ∧
    ∀ i x v, xcts init !! i = Some x → valueCounts init !! i = Some v →
      xcts s2 !! i = Some x ∧ valueCounts s2 !! i = Some v ∧
      heapX s2 !! x = heapX init !! x ∧ heapC s2 !! v = heapC init !! v.
Proof.
  apply (begin_copy_isolated init
           [cmd [SET; "a"; "1"]; cmd [UNSET; "a"];
            cmd [SET; "b"; "2"]; cmd [UNSET; "c"]]).
  - apply reach_init.
  - discriminate.
  - apply Forall_cons_2; [by left|].
    apply Forall_cons_2; [by right|].
    apply Forall_cons_2; [by left|].
    apply Forall_cons_2; [by right|].
    apply Forall_nil_2.
Defined.

Lemma one_binding_reachable : reachable one_binding.
Proof.
  apply (reach_step init (cmd [SET; "a"; "10"])); [apply reach_init|].
  vm_compute. reflexivity.
Qed.

(** C8. [get] writes the value of a name that the current transaction
    binds to a value, writes NULL for a name that is absent or bound to
    None, and returns the state as it was but for that line of output. *)
Theorem get_reads_only k s m :
  heapX s !! currXct s = Some m →
  get k s =
  Ret tt (with_stdout (stdout s ++ [match m !! k with
                                    | Some (Some v) => v +:+ Py.nl
                                    | Some None | None => "NULL" +:+ Py.nl
                                    end]) s).
Proof. apply get_run. Qed.

Lemma get_reads_only_witness :
  get "a" one_binding =
  Ret tt (with_stdout (stdout one_binding ++ ["10" +:+ Py.nl]) one_binding).
Proof.
  generalize (get_reads_only "a" one_binding {[ "a" := Some "10" ]}).
  vm_compute. intros H. apply H. reflexivity.
Defined.

(** C9. In a state the commands reach, [unset] on a name that the current
    transaction does not hold raises KeyError at the lookup, before
    anything is changed; on a name that it holds, [unset] binds the name
    to None and, when the name held a value, takes one off the count of
    that value, which has an entry. *)
Theorem unset_contract k s m c :
  inv s → current s = Some (currXct s, currValCount s) →
  heapX s !! currXct s = Some m → heapC s !! currValCount s = Some c →
  match m !! k with
  | None => unset k s = Raise KeyError s
  | Some None =>
      unset k s =
      Ret tt (with_heapX (<[currXct s := <[k := None]> m]> (heapX s)) s)
  | Some (Some old) =>
      ∃ n, c !! old = Some n ∧
        unset k s =
        Ret tt (with_heapC
                  (<[currValCount s := <[old := (n - 1)%Z]> c]> (heapC s))
                  (with_heapX (<[currXct s := <[k := None]> m]> (heapX s)) s))
  end.
Proof.
  intros Hs Hcur Hm Hc.
  destruct (m !! k) as [[old|]|] eqn:Hk.
  - destruct (current_layer s Hs _ _ Hcur) as (i & Hx & Hv).
    assert (covered m c) as Hcov by (by eapply inv_covered).
    destruct (Hcov _ _ Hk) as [n Hn].
    exists n. split; [done|]. by eapply unset_run_some.
  - by eapply unset_run_none.
  - by eapply unset_run_absent.
Qed.

Lemma unset_contract_witness :
  ∃ n, ({[ "10" := 1%Z ]} : counts) !! "10" = Some n ∧
    unset "a" one_binding =
    Ret tt (with_heapC
              (<[currValCount one_binding :=
                   <["10" := (n - 1)%Z]> {[ "10" := 1%Z ]}]>
                 (heapC one_binding))
              (with_heapX
                 (<[currXct one_binding :=
                      <["a" := None]> {[ "a" := Some "10" ]}]>
                    (heapX one_binding)) one_binding)).
Proof.
  assert (inv one_binding) as Hinv
    by apply reachable_inv, one_binding_reachable.
  generalize (unset_contract "a" one_binding
                {[ "a" := Some "10" ]} {[ "10" := 1%Z ]} Hinv).
  clear Hinv. vm_compute. intros H. apply H; reflexivity.
Defined.

Lemma holders_insert_same k v (m : snapshot) :
  m !! k = Some (Some v) → holders v (<[k := Some v]> m) = holders v m.
Proof. intros Hk. by rewrite insert_id. Qed.

(** C10. SET k v on a name that the current transaction already binds to v
    adds one to the count of v all the same: the count that NUMEQUALTO v
    then writes is one more than before, while the names holding v are the
    same.  Sent after SET a 10 on a fresh database, SET a 10 and
    NUMEQUALTO 10 write 2 with one name holding 10. *)
Theorem set_same_value_counts_again s k v x vc m c n :
  current s = Some (x, vc) →
  heapX s !! x = Some m → heapC s !! vc = Some c →
  is_word k = true → is_word v = true →
  m !! k = Some (Some v) → c !! v = Some n →
  ∃ s' m' c',
    main_loop [cmd [SET; k; v]; cmd [NUMEQUALTO; v]] s = Ret tt s' ∧
    stdout s' = stdout s ++ [Py.str_int (n + 1); Py.nl] ∧
    current s' = Some (x, vc) ∧
    heapX s' !! x = Some m' ∧ heapC s' !! vc = Some c' ∧
    c' !! v = Some (n + 1)%Z ∧
    holders v m' = holders v m.
Proof.
  intros Hcur Hm Hc Hk Hv Hmk Hcv.
  next_cmd perform_SET.
  next_cmd perform_NUMEQUALTO.
  assert (set_counts m c k v = <[v := (n + 1)%Z]> c) as Hset.
  { unfold set_counts, incr. rewrite Hmk.
    rewrite bool_decide_false by naive_solver. by rewrite Hcv. }
  eexists _, _, _. split; [reflexivity|]. st_simpl. split_and!.
  - unfold count_of. by rewrite Hset, lookup_insert_eq.
  - exact Hcur.
  - heap_lookup.
  - heap_lookup.
  - by rewrite Hset, lookup_insert_eq.
  - by apply holders_insert_same.
Qed.

Lemma set_same_value_counts_again_witness :
  ∃ s' m' c',
    main_loop [cmd [SET; "a"; "10"]; cmd [NUMEQUALTO; "10"]] one_binding
      = Ret tt s' ∧
    stdout s' = stdout one_binding ++ ["2"; Py.nl] ∧
    current s' = Some (0, 0) ∧
    heapX s' !! 0 = Some m' ∧ heapC s' !! 0 = Some c' ∧
    c' !! "10" = Some 2%Z ∧
    holders "10" m' = 1.
Proof.
  generalize (set_same_value_counts_again one_binding "a" "10" 0 0
                {[ "a" := Some "10" ]} {[ "10" := 1%Z ]} 1).
  vm_compute. intros H. apply H; reflexivity.
Defined.

(** C1. The count that NUMEQUALTO writes is not always the number of names
    holding the value: after SET a 10 twice, NUMEQUALTO 10 writes 2 while
    one name holds 10 in the current transaction. *)
Theorem count_differs_from_holders :
  ∃ s x v m,
    main [cmd [SET; "a"; "10"]; cmd [SET; "a"; "10"];
          cmd [NUMEQUALTO; "10"]] = Ret tt s ∧
    stdout s = ["2"; Py.nl] ∧
    current s = Some (x, v) ∧ heapX s !! x = Some m ∧
    holders "10" m = 1.
Proof.
  eexists _, _, _, _. split_and!; vm_compute; reflexivity.
Qed.

(** C2. The depth of the stack and the flag come apart: after BEGIN and
    ROLLBACK one layer is left and the flag is still set; a second
    ROLLBACK then leaves no layer at all. *)
Theorem depth_and_flag_come_apart :
  ∃ s1 s2,
    main [cmd [BEGIN]; cmd [ROLLBACK]] = Ret tt s1 ∧
    length (xcts s1) = 1 ∧ inTransac s1 = true ∧
    main [cmd [BEGIN]; cmd [ROLLBACK]; cmd [ROLLBACK]] = Ret tt s2 ∧
    length (xcts s2) = 0 ∧ inTransac s2 = false.
Proof.
  eexists _, _. split_and!; vm_compute; reflexivity.
Qed.

(** C3. After BEGIN and ROLLBACK, a second ROLLBACK writes nothing and
    pops the committed layer off both stacks; whatever line comes next
    raises IndexError. *)
Theorem second_rollback_pops_base :
  ∃ s,
    main [cmd [BEGIN]; cmd [ROLLBACK]; cmd [ROLLBACK]] = Ret tt s ∧
    stdout s = [] ∧ xcts s = [] ∧ valueCounts s = [] ∧
    ∀ line, ∃ s', performCommand line s = Raise IndexError s'.
Proof.
  eexists. split; [vm_compute; reflexivity|].
  split_and!; [reflexivity..|].
  intros line. unfold performCommand.
  destruct (split_cons " " (Py.strip line)) as (cw & rest & ->).
  rewrite bind_field. cbn [lookup list_lookup].
  match goal with
  | |- ∃ s', bind point_current _ ?s = _ =>
      destruct (point_current_fail s eq_refl) as [s' Hs']
  end.
  exists s'. by apply run_bind_raise.
Qed.

(** ** Further properties: the dispatcher and the read loop *)

Lemma dispatch_unknown c instruc :
  c ∉ commands →
  dispatch c instruc = write ("Invalid command. Try again." +:+ Py.nl).
Proof.
  unfold commands. rewrite !not_elem_of_cons.
  intros (? & ? & ? & ? & ? & ? & ? & ? & _).
  unfold dispatch. by rewrite !decide_False by done.
Qed.

(** X1. A line whose first field is none of the eight command words (a
    blank line, a word in lower case) writes the fixed message and leaves
    both stacks, the flag and every dictionary as they were. *)
Theorem unknown_command_is_reported line s x v :
  current s = Some (x, v) →
  hd "" (fields line) ∉ commands →
  performCommand line s =
  Ret tt (mkState (xcts s) (valueCounts s) (inTransac s) x v
                  (heapX s) (heapC s)
                  (stdout s ++ ["Invalid command. Try again." +:+ Py.nl])).
Proof.
  intros Hcur Hc.
  destruct (split_cons " " (Py.strip line)) as (c & rest & Hf).
  fold (fields line) in Hf. rewrite Hf in Hc. simpl in Hc.
  rewrite (performCommand_fields _ _ _ _ Hf).
  erewrite run_bind by (by apply point_current_run).
  by rewrite dispatch_unknown.
Qed.

Lemma unknown_command_is_reported_witness :
  performCommand ("begin" +:+ Py.nl) init =
  Ret tt (mkState (xcts init) (valueCounts init) (inTransac init) 0 0
                  (heapX init) (heapC init)
                  (stdout init ++ ["Invalid command. Try again." +:+ Py.nl])).
Proof.
  apply (unknown_command_is_reported ("begin" +:+ Py.nl) init 0 0).
  - reflexivity.
  - apply (bool_decide_unpack _). vm_compute. exact I.
Defined.

Lemma app_nil_r_str s : s +:+ "" = s.
Proof.
  induction s as [|c s IH]; [done|]. by rewrite (app_cons_str c s), IH.
Qed.

Lemma lstrip_word_app w t :
  is_word w = true → Py.lstrip (w +:+ t) = w +:+ t.
Proof.
  intros (c & u & -> & Hc & _)%is_word_inv.
  rewrite (app_cons_str c u). cbn [Py.lstrip]. by rewrite Hc.
Qed.

Lemma rstrip_word_app w t :
  is_word w = true → Py.rstrip (w +:+ t) = w +:+ Py.rstrip t.
Proof.
  intros (c & u & -> & Hc & Hu)%is_word_inv. revert c Hc.
  induction u as [|d u IH]; intros c Hc.
  - rewrite !(app_cons_str c ""), !app_nil_l_str. cbn [Py.rstrip].
    rewrite Hc. by destruct (Py.rstrip t).
  - apply andb_prop in Hu as [Hd Hu]. apply negb_true_iff in Hd.
    rewrite !(app_cons_str c (String d u)). cbn [Py.rstrip].
    rewrite (IH Hu d Hd). by rewrite (app_cons_str d u).
Qed.

Lemma rstrip_sep u :
  Py.rstrip (String " " u) =
  if decide (Py.rstrip u = "") then "" else String " " (Py.rstrip u).
Proof. cbn [Py.rstrip]. by destruct (Py.rstrip u). Qed.

(** Whatever follows it, a command word at the head of a line is the first
    field of the line. *)
Lemma fields_cmd_head c args :
  is_word c = true → ∃ rest, fields (cmd (c :: args)) = c :: rest.
Proof.
  intros Hc. pose proof (is_word_spaceless c Hc) as Hsp.
  unfold fields, Py.strip, cmd. destruct args as [|a args].
  - exists []. cbn [join].
    rewrite lstrip_word_app, rstrip_spaceless_nl by done.
    by apply split_spaceless.
  - change (join (c :: a :: args)) with (c +:+ String " " (join (a :: args))).
    rewrite app_assoc_str, lstrip_word_app, rstrip_word_app by done.
    rewrite (app_cons_str " " (join (a :: args))), rstrip_sep.
    case_decide.
    + exists []. rewrite app_nil_r_str. by apply split_spaceless.
    + eexists. by apply split_spaceless_sp.
Qed.

Lemma split_gapless w : gapless w = true → Py.split " " w = [w].
Proof.
  induction w as [|c w IH]; [done|]. simpl.
  intros [Hc Hw]%andb_prop. apply negb_true_iff in Hc.
  rewrite decide_False by (by apply bool_decide_eq_false in Hc).
  by rewrite IH.
Qed.

Lemma gapless_rstrip w : gapless w = true → gapless (Py.rstrip w) = true.
Proof.
  induction w as [|c w IH]; [done|].
  intros [Hc Hw]%andb_prop. cbn [Py.rstrip].
  specialize (IH Hw). destruct (Py.rstrip w) as [|d r].
  - destruct (Py.is_space c); [done|]. simpl. by rewrite Hc.
  - cbn [gapless] in *. by rewrite Hc.
Qed.

Lemma gapless_app w t :
  gapless w = true → gapless t = true → gapless (w +:+ t) = true.
Proof.
  intros Hw Ht. induction w as [|c w IH]; [done|].
  apply andb_prop in Hw as [Hc Hw].
  rewrite (app_cons_str c w). cbn [gapless]. by rewrite Hc, IH.
Qed.

(** A command word and one more field without a space in it: the line has
    one field or two. *)
Lemma fields_one_arg c k :
  is_word c = true → gapless k = true →
  fields (cmd [c; k]) = [c] ∨ ∃ k', fields (cmd [c; k]) = [c; k'].
Proof.
  intros Hc Hk. pose proof (is_word_spaceless c Hc) as Hsp.
  unfold fields, Py.strip, cmd.
  change (join [c; k]) with (c +:+ String " " k).
  rewrite app_assoc_str, lstrip_word_app, rstrip_word_app by done.
  rewrite (app_cons_str " " k), rstrip_sep.
  case_decide.
  - left. rewrite app_nil_r_str. by apply split_spaceless.
  - right. eexists. rewrite split_spaceless_sp by done.
    by rewrite split_gapless by (by apply gapless_rstrip, gapless_app).
Qed.

(** X2. Fields that the command does not read are ignored: a line of words
    does what its command word and the first [arity] words after it do, so
    GET a b c is GET a, and BEGIN x is BEGIN. *)
Theorem extra_words_are_ignored c args s :
  Forall (λ w, is_word w = true) (c :: args) →
  performCommand (cmd (c :: args)) s =
  performCommand (cmd (c :: take (arity c) args)) s.
Proof.
  intros Hws.
  assert (Forall (λ w, is_word w = true) (c :: take (arity c) args)) as Hws'.
  { apply Forall_cons in Hws as [Hc Hargs].
    apply Forall_cons_2; [done|]. by apply Forall_take. }
  rewrite (performCommand_cmd c args) by done.
  rewrite (performCommand_cmd c (take (arity c) args)) by done.
  assert (dispatch c (c :: args) = dispatch c (c :: take (arity c) args))
    as ->; [|done].
  unfold dispatch, arity.
  destruct (decide (c = BEGIN)); [done|].
  destruct (decide (c = ROLLBACK)); [done|].
  destruct (decide (c = COMMIT)); [done|].
  destruct (decide (c = SET)); [by destruct args as [|a [|b args]]|].
  destruct (decide (c = GET)) as [->|]; [by destruct args|].
  destruct (decide (c = UNSET)) as [->|]; [by destruct args|].
  destruct (decide (c = NUMEQUALTO)) as [->|]; [by destruct args|].
  done.
Qed.

Lemma extra_words_are_ignored_witness :
  performCommand (cmd [GET; "a"; "b"; "c"]) one_binding =
  performCommand (cmd [GET; "a"]) one_binding.
Proof.
  apply (extra_words_are_ignored GET ["a"; "b"; "c"] one_binding).
  repeat (apply Forall_cons_2; [reflexivity|]). apply Forall_nil_2.
Defined.

(** X3. A data command that lacks an argument raises IndexError when the
    missing field is read; by then only the two current references have
    been set, no dictionary and no stack has changed.  For SET with one
    argument this holds whatever the argument is, as long as it has no
    space in it. *)
Theorem missing_argument_raises s x v k :
  current s = Some (x, v) → gapless k = true →
  let s0 := with_currValCount v (with_currXct x s) in
  performCommand (cmd [SET]) s = Raise IndexError s0 ∧
  performCommand (cmd [SET; k]) s = Raise IndexError s0 ∧
  performCommand (cmd [GET]) s = Raise IndexError s0 ∧
  performCommand (cmd [UNSET]) s = Raise IndexError s0 ∧
  performCommand (cmd [NUMEQUALTO]) s = Raise IndexError s0.
Proof.
  intros Hcur Hk s0.
  split_and!; try (open_cmd; by rewrite ?bind_field).
  destruct (fields_one_arg SET k eq_refl Hk) as [Hf|[k' Hf]];
    rewrite (performCommand_fields _ _ _ _ Hf);
    (erewrite run_bind by (by apply point_current_run));
    unfold dispatch, SET, BEGIN, ROLLBACK, COMMIT;
    repeat (rewrite decide_False by done); rewrite decide_True by done;
    by rewrite ?bind_field.
Qed.

Lemma missing_argument_raises_witness :
  let s0 := with_currValCount 0 (with_currXct 0 init) in
  performCommand (cmd [SET]) init = Raise IndexError s0 ∧
  performCommand (cmd [SET; "a"]) init = Raise IndexError s0 ∧
  performCommand (cmd [GET]) init = Raise IndexError s0 ∧
  performCommand (cmd [UNSET]) init = Raise IndexError s0 ∧
  performCommand (cmd [NUMEQUALTO]) init = Raise IndexError s0.
Proof.
  apply (missing_argument_raises init 0 0 "a"); reflexivity.
Defined.

(** X4. END, whatever follows it on the line, raises SystemExit out of the
    read loop: nothing is written and no later line is run. *)
Theorem end_leaves_the_loop s x v args rest :
  current s = Some (x, v) →
  main_loop (cmd (END :: args) :: rest) s =
  Raise SystemExit (with_currValCount v (with_currXct x s)).
Proof.
  intros Hcur. apply main_loop_raise; [apply cmd_nonempty|].
  destruct (fields_cmd_head END args eq_refl) as [fs Hf].
  rewrite (performCommand_fields _ _ _ _ Hf).
  erewrite run_bind by (by apply point_current_run).
  reflexivity.
Qed.

Lemma end_leaves_the_loop_witness :
  main_loop (cmd (END :: ["now"]) :: [cmd [SET; "a"; "1"]; cmd [GET; "a"]])
            one_binding =
  Raise SystemExit (with_currValCount 0 (with_currXct 0 one_binding)).
Proof.
  apply (end_leaves_the_loop one_binding 0 0 ["now"]).
  reflexivity.
Defined.

Lemma split_join_spaceless ws :
  Forall (λ w, spaceless w = true) ws → ws ≠ [] →
  Py.split " " (join ws) = ws.
Proof.
  induction 1 as [|w ws Hw Hws IH]; [done|]. intros _.
  destruct ws as [|w' ws].
  - simpl. by apply split_spaceless.
  - change (join (w :: w' :: ws)) with (w +:+ String " " (join (w' :: ws))).
    rewrite split_spaceless_sp by done. by rewrite IH.
Qed.

Lemma rstrip_cmd_spaceless ws z :
  Forall (λ w, spaceless w = true) ws → last ws = Some z →
  is_word z = true →
  Py.rstrip (cmd ws) = join ws ∧ join ws ≠ "".
Proof.
  unfold cmd. intros Hws Hz Hword. revert Hz.
  induction Hws as [|w ws Hw Hws IH]; [done|]. intros Hz.
  destruct ws as [|w' ws].
  - simpl in Hz. simplify_eq. simpl. split.
    + by apply rstrip_spaceless_nl.
    + by apply is_word_nonempty.
  - rewrite last_cons_cons in Hz. destruct (IH Hz) as [IH1 IH2].
    change (join (w :: w' :: ws)) with (w +:+ " " +:+ join (w' :: ws)).
    rewrite !app_assoc_str.
    assert (Py.rstrip (" " +:+ join (w' :: ws) +:+ Py.nl)
            = " " +:+ join (w' :: ws)) as Hsp.
    { rewrite rstrip_app by (by rewrite IH1). by rewrite IH1. }
    split.
    + rewrite rstrip_app; rewrite Hsp; done.
    + intros [_ ?]%app_empty_str. done.
Qed.

(** A line of fields separated by single spaces, where inner fields may be
    empty (two spaces in a row), is cut into exactly these fields. *)
Lemma fields_cmd_gaps w mid z :
  is_word w = true → Forall (λ w, spaceless w = true) mid →
  is_word z = true →
  fields (cmd (w :: mid ++ [z])) = w :: mid ++ [z].
Proof.
  intros Hw Hmid Hz. unfold fields, Py.strip.
  assert (Forall (λ w, spaceless w = true) (w :: mid ++ [z])) as Hall.
  { apply Forall_cons_2; [by apply is_word_spaceless|].
    apply Forall_app_2; [done|].
    apply Forall_cons_2; [by apply is_word_spaceless|apply Forall_nil_2]. }
  assert (Py.lstrip (cmd (w :: mid ++ [z])) = cmd (w :: mid ++ [z])) as ->.
  { apply is_word_inv in Hw as (c & t & -> & Hc & _).
    unfold cmd. destruct (mid ++ [z]) as [|w' ws] eqn:E.
    - by destruct mid.
    - change (join (String c t :: w' :: ws))
        with (String c t +:+ " " +:+ join (w' :: ws)).
      rewrite app_assoc_str, (app_cons_str c t).
      cbn [Py.lstrip]. by rewrite Hc. }
  destruct (rstrip_cmd_spaceless (w :: mid ++ [z]) z Hall) as [-> _];
    [|done|].
  - change (w :: mid ++ [z]) with ((w :: mid) ++ [z]). apply last_snoc.
  - by apply split_join_spaceless.
Qed.

(** X5. Spaces are not collapsed: in a SET line with two spaces after the
    command word, the name is the empty string and the value is the word
    that was meant as the name; the word that was meant as the value is a
    fourth field, which is not read. *)
Theorem doubled_space_sets_the_empty_name s x v m c k val :
  current s = Some (x, v) →
  heapX s !! x = Some m → heapC s !! v = Some c →
  is_word k = true → is_word val = true →
  fields ("SET  " +:+ k +:+ " " +:+ val +:+ Py.nl) = [SET; ""; k; val] ∧
  performCommand ("SET  " +:+ k +:+ " " +:+ val +:+ Py.nl) s =
  Ret tt (mkState (xcts s) (valueCounts s) (inTransac s) x v
                  (<[x := <["" := Some k]> m]> (heapX s))
                  (<[v := set_counts m c "" k]> (heapC s)) (stdout s)).
Proof.
  intros Hcur Hm Hc Hk Hval.
  assert (fields ("SET  " +:+ k +:+ " " +:+ val +:+ Py.nl)
          = [SET; ""; k; val]) as Hf.
  { assert ("SET  " +:+ k +:+ " " +:+ val +:+ Py.nl
            = cmd (SET :: [""; k] ++ [val])) as ->.
    { unfold cmd. cbn [join app]. by rewrite !app_assoc_str. }
    apply (fields_cmd_gaps SET [""; k] val); [done| |done].
    apply Forall_cons_2; [done|].
    apply Forall_cons_2; [by apply is_word_spaceless|apply Forall_nil_2]. }
  split; [done|].
  rewrite (performCommand_fields _ _ _ _ Hf).
  erewrite run_bind by (by apply point_current_run).
  unfold dispatch, SET, BEGIN, ROLLBACK, COMMIT.
  repeat (rewrite decide_False by done). rewrite decide_True by done.
  steps_all.
  erewrite set_run by (st_simpl; eassumption). done.
Qed.

Lemma doubled_space_sets_the_empty_name_witness :
  fields ("SET  " +:+ "a" +:+ " " +:+ "10" +:+ Py.nl) = [SET; ""; "a"; "10"] ∧
  performCommand ("SET  " +:+ "a" +:+ " " +:+ "10" +:+ Py.nl) init =
  Ret tt (mkState (xcts init) (valueCounts init) (inTransac init) 0 0
                  (<[0 := <["" := Some "a"]> ∅]> (heapX init))
                  (<[0 := set_counts ∅ ∅ "" "a"]> (heapC init))
                  (stdout init)).
Proof.
  apply (doubled_space_sets_the_empty_name init 0 0 ∅ ∅ "a" "10");
    reflexivity.
Defined.

(** ** Further properties: what a command does to the store *)

(** A command that returns changes the store in one of five ways. *)
Lemma performCommand_effect line s s' :
  inv s → performCommand line s = Ret tt s' → effect s s'.
Proof.
  intros Hs.
  destruct (split_cons " " (Py.strip line)) as (cw & rest & Hf).
  rewrite (performCommand_fields line cw rest s Hf).
  destruct (current s) as [[x v]|] eqn:Hcur.
  2: { destruct (point_current_fail s Hcur) as [s0 E].
       by erewrite run_bind_raise by exact E. }
  erewrite run_bind by (by apply point_current_run).
  destruct (current_layer s Hs x v Hcur) as (i & Hx & Hv).
  destruct (layer_contents s Hs i x v Hx Hv) as (m & c & Hm & Hc & Hcov).
  destruct (current_top s x v Hs Hcur) as [Hlx Hlv].
  unfold dispatch. repeat case_decide.
  - erewrite begin_run by (st_simpl; eassumption).
    intros [= <-]. by eapply eff_push.
  - destruct (inTransac s) eqn:Ht.
    + erewrite rollback_run_pop; st_simpl; try done.
      * intros [= <-]. apply eff_pop; try done. intros E. by rewrite E in Hx.
      * intros E. by rewrite E in Hx.
      * intros E. by rewrite E in Hv.
    + erewrite rollback_run_idle by done. intros [= <-]. by apply eff_frame.
  - destruct (inTransac s) eqn:Ht.
    + erewrite commit_run by (st_simpl; eassumption).
      intros [= <-]. by eapply eff_flatten.
    + erewrite commit_run_idle by done. intros [= <-]. by apply eff_frame.
  - rewrite bind_field. destruct (_ !! 1) as [k|]; [|done].
    rewrite bind_field. destruct (_ !! 2) as [val|]; [|done].
    erewrite set_run by (st_simpl; eassumption).
    intros [= <-]. eapply eff_write; try done. apply wr_set.
  - rewrite bind_field. destruct (_ !! 1) as [k|]; [|done].
    erewrite get_run by (st_simpl; eassumption).
    intros [= <-]. by apply eff_frame.
  - rewrite bind_field. destruct (_ !! 1) as [k|]; [|done].
    destruct (m !! k) as [[old|]|] eqn:Hk.
    + destruct (Hcov _ _ Hk) as [n Hn].
      erewrite unset_run_some by (st_simpl; eassumption).
      intros [= <-]. eapply eff_write; try done. by eapply wr_unset.
    + erewrite unset_run_none by (st_simpl; eassumption).
      intros [= <-]. eapply (eff_write _ _ x v m c); try done.
      * by apply wr_unset_none.
      * st_simpl. by rewrite list_insert_id.
    + by erewrite unset_run_absent by (st_simpl; eassumption).
  - rewrite bind_field. destruct (_ !! 1) as [val|]; [|done].
    erewrite numEqualTo_run by (st_simpl; eassumption).
    intros [= <-]. by apply eff_frame.
  - done.
  - rewrite write_run. intros [= <-]. by apply eff_frame.
Qed.

(** A relation between the two dictionaries of a layer that SET and UNSET
    keep is kept by every command. *)
Lemma effect_layers_sat (R : snapshot → counts → Prop) s s' :
  (∀ m c m' c', written m c m' c' → R m c → R m' c') →
  inv s → effect s s' → layers_sat R s → layers_sat R s'.
Proof.
  intros HR Hs Heff Hsat.
  destruct Heff as
    [Ex Ev _ Ehx Ehc
    |x v m c m' c' Hcur Hm Hc Hw Ex Ev _ Ehx Ehc
    |x v m c Hlx Hlv Hm Hc Ex Ev _ Ehx Ehc
    |_ _ Ex Ev _ Ehx Ehc
    |x v m c _ Hcur Hm Hc Ex Ev _ Ehx Ehc];
    intros j y w m0 c0; rewrite Ex, Ev, Ehx, Ehc.
  - apply Hsat.
  - destruct (current_layer s Hs x v Hcur) as (i & Hx & Hv).
    intros Hy Hw0 Hm0 Hc0.
    destruct (decide (i = j)) as [->|Hij].
    + simplify_eq.
      rewrite list_lookup_insert_eq in Hm0 by eauto using lookup_lt_Some.
      rewrite list_lookup_insert_eq in Hc0 by eauto using lookup_lt_Some.
      simplify_eq. eapply HR; [done|]. by eapply Hsat.
    + assert (x ≠ y)
        by (intros ->; eauto using NoDup_lookup, inv_nodupX).
      assert (v ≠ w)
        by (intros ->; eauto using NoDup_lookup, inv_nodupC).
      rewrite list_lookup_insert_ne in Hm0 by done.
      rewrite list_lookup_insert_ne in Hc0 by done.
      by eapply Hsat.
  - destruct (top_layer s Hs x v Hlx Hlv) as (t & Htx & Htv).
    intros Hy Hw0 Hm0 Hc0.
    destruct (decide (j < length (xcts s))) as [Hj|Hj].
    + rewrite lookup_app_l in Hy by done.
      rewrite lookup_app_l in Hw0 by (rewrite <- (inv_length s Hs); lia).
      rewrite lookup_app_l in Hm0
        by (eapply inv_allocX, list_elem_of_lookup_2; eauto).
      rewrite lookup_app_l in Hc0
        by (eapply inv_allocC, list_elem_of_lookup_2; eauto).
      by eapply Hsat.
    + rewrite lookup_app_r in Hy by lia.
      rewrite lookup_app_r in Hw0 by (rewrite <- (inv_length s Hs); lia).
      rewrite <- (inv_length s Hs) in Hw0.
      destruct (j - length (xcts s)) as [|?]; [|done].
      simpl in Hy, Hw0. simplify_eq.
      rewrite list_lookup_middle in Hm0 by done.
      rewrite list_lookup_middle in Hc0 by done.
      simplify_eq. by eapply Hsat.
  - intros Hy Hw0. apply (Hsat j).
    + destruct (snoc_cases (xcts s)) as [E|(l & a & E)]; rewrite E in *;
        [done|]. rewrite removelast_last in Hy. by apply lookup_app_l_Some.
    + destruct (snoc_cases (valueCounts s)) as [E|(l & a & E)];
        rewrite E in *; [done|].
      rewrite removelast_last in Hw0. by apply lookup_app_l_Some.
  - destruct (current_layer s Hs x v Hcur) as (i & Hx & Hv).
    intros Hy Hw0 Hm0 Hc0.
    destruct j as [|j]; simplify_eq/=.
    rewrite list_lookup_middle in Hm0 by done.
    rewrite list_lookup_middle in Hc0 by done.
    simplify_eq. by eapply Hsat.
Qed.

Lemma reachable_layers_sat (R : snapshot → counts → Prop) s :
  R ∅ ∅ →
  (∀ m c m' c', written m c m' c' → R m c → R m' c') →
  reachable s → layers_sat R s.
Proof.
  intros H0 HR. induction 1 as [|s line s' Hr IH Hrun].
  - intros [|i] x v m c ? ? Hm Hc; simplify_eq/=. done.
  - apply reachable_inv in Hr as Hs.
    eauto using effect_layers_sat, performCommand_effect.
Qed.

(** ** Further properties: counts and holders *)

Lemma holders_insert_fresh v k x (m : snapshot) :
  m !! k = None →
  holders v (<[k := x]> m)
  = holders v m + (if decide (x = Some v) then 1 else 0).
Proof.
  intros Hk. unfold holders. rewrite map_filter_insert. simpl.
  destruct (decide (x = Some v)) as [->|Hx].
  - rewrite map_size_insert_None; [lia|].
    apply map_lookup_filter_None. by left.
  - rewrite delete_id by done. lia.
Qed.

Lemma holders_insert v k x (m : snapshot) :
  holders v (<[k := x]> m)
  = holders v (delete k m) + (if decide (x = Some v) then 1 else 0).
Proof.
  rewrite <- insert_delete_eq. apply holders_insert_fresh, lookup_delete_eq.
Qed.

Lemma holders_delete v k (m : snapshot) :
  holders v m
  = holders v (delete k m)
    + (if decide (m !! k = Some (Some v)) then 1 else 0).
Proof.
  destruct (m !! k) as [x|] eqn:Hk.
  - rewrite <- (insert_delete_id m k x) at 1 by done.
    rewrite holders_insert_fresh by apply lookup_delete_eq.
    repeat case_decide; simplify_eq; lia.
  - rewrite delete_id by done. rewrite decide_False by done. lia.
Qed.

Lemma count_of_insert (c : counts) k n w :
  count_of (<[k := n]> c) w = if decide (w = k) then n else count_of c w.
Proof.
  unfold count_of. case_decide as E.
  - subst. by rewrite lookup_insert_eq.
  - by rewrite lookup_insert_ne.
Qed.

Lemma count_of_incr v (c : counts) w :
  count_of (incr v c) w
  = (count_of c w + (if decide (w = v) then 1 else 0))%Z.
Proof.
  unfold incr. destruct (c !! v) as [n|] eqn:Hv;
    rewrite count_of_insert; case_decide; subst; unfold count_of;
    rewrite ?Hv; simpl; lia.
Qed.

Lemma count_of_decr old (c : counts) w :
  count_of (decr old c) w
  = (count_of c w
     - (if decide (w = old ∧ is_Some (c !! old)) then 1 else 0))%Z.
Proof.
  unfold decr. destruct (c !! old) as [n|] eqn:Ho.
  - rewrite count_of_insert. repeat case_decide; subst; unfold count_of;
      rewrite ?Ho; simpl; try lia; exfalso; destruct_and?; simplify_eq; intuition eauto.
  - rewrite decide_False by (intros [_ [? ?]]; done). lia.
Qed.

(** How SET moves the count of each value [w]. *)
Lemma count_of_set_counts (m : snapshot) (c : counts) k val w :
  count_of (set_counts m c k val) w
  = (count_of c w
     + (if decide (w = val) then 1 else 0)
     - (if decide (m !! k = Some (Some w) ∧ w ≠ val ∧ is_Some (c !! w))
        then 1 else 0))%Z.
Proof.
  unfold set_counts. rewrite count_of_incr.
  destruct (m !! k) as [[old|]|] eqn:Hk.
  - case_bool_decide as Hne.
    + rewrite count_of_decr.
      repeat case_decide; simplify_eq; try lia; exfalso; destruct_and?; simplify_eq; intuition eauto.
    + repeat case_decide; simplify_eq; try lia; exfalso; destruct_and?; simplify_eq; intuition eauto.
  - repeat case_decide; simplify_eq; try lia; exfalso; destruct_and?; simplify_eq; intuition eauto.
  - repeat case_decide; simplify_eq; try lia; exfalso; destruct_and?; simplify_eq; intuition eauto.
Qed.

Lemma at_least_written m c m' c' :
  written m c m' c' → at_least m c → at_least m' c'.
Proof.
  intros Hw Hal w. specialize (Hal w).
  destruct Hw as [k val|k old n Hk Ho|k Hk].
  - rewrite count_of_set_counts, holders_insert.
    rewrite (holders_delete w k m) in Hal.
    repeat case_decide; simplify_eq; try lia; exfalso; destruct_and?; simplify_eq; intuition eauto.
  - rewrite count_of_insert, holders_insert.
    rewrite (holders_delete w k m) in Hal.
    repeat case_decide; simplify_eq; try lia.
    unfold count_of in Hal. rewrite Ho in Hal. simpl in Hal. lia.
  - rewrite holders_insert. rewrite (holders_delete w k m) in Hal.
    repeat case_decide; simplify_eq; lia.
Qed.

Lemma at_least_empty : at_least ∅ ∅.
Proof. intros v. unfold holders, count_of. by rewrite map_filter_empty. Qed.

Lemma view_Some s m c :
  view s = Some (m, c) →
  ∃ x v, current s = Some (x, v) ∧
         heapX s !! x = Some m ∧ heapC s !! v = Some c.
Proof.
  unfold view. destruct (current s) as [[x v]|]; [|done].
  destruct (heapX s !! x) eqn:?, (heapC s !! v) eqn:?; intros; simplify_eq.
  eauto.
Qed.

Lemma view_intro s x v m c :
  current s = Some (x, v) → heapX s !! x = Some m → heapC s !! v = Some c →
  view s = Some (m, c).
Proof. unfold view. by intros -> -> ->. Qed.

(** X6. NUMEQUALTO never reports less than the number of names that hold
    the value in the current transaction; in particular it never reports
    a negative number, and when it reports 0 no name holds the value. *)
Theorem count_never_below_holders s m c w :
  reachable s → view s = Some (m, c) → is_word w = true →
  (Z.of_nat (holders w m) ≤ count_of c w)%Z ∧
  ∃ s', performCommand (cmd [NUMEQUALTO; w]) s = Ret tt s' ∧
        stdout s' = stdout s ++ [Py.str_int (count_of c w); Py.nl].
Proof.
  intros Hr (x & v & Hcur & Hm & Hc)%view_Some Hw.
  apply reachable_inv in Hr as Hs.
  destruct (current_layer s Hs x v Hcur) as (i & Hx & Hv).
  split.
  - eapply (reachable_layers_sat at_least);
      eauto using at_least_empty, at_least_written.
  - eexists. split; [by eapply perform_NUMEQUALTO|done].
Qed.

Lemma count_never_below_holders_witness :
  (Z.of_nat (holders "10" {[ "a" := Some "10" ]})
   ≤ count_of {[ "10" := 1%Z ]} "10")%Z ∧
  ∃ s', performCommand (cmd [NUMEQUALTO; "10"]) one_binding = Ret tt s' ∧
        stdout s' =
          stdout one_binding
          ++ [Py.str_int (count_of {[ "10" := 1%Z ]} "10"); Py.nl].
Proof.
  apply (count_never_below_holders one_binding
           {[ "a" := Some "10" ]} {[ "10" := 1%Z ]} "10").
  - apply one_binding_reachable.
  - vm_compute. reflexivity.
  - reflexivity.
Defined.

Lemma reachable_view_covered s m c :
  reachable s → view s = Some (m, c) → covered m c.
Proof.
  intros Hs%reachable_inv (x & v & Hcur & Hm & Hc)%view_Some.
  destruct (current_layer s Hs x v Hcur) as (i & Hx & Hv).
  by eapply inv_covered.
Qed.

(** X7. A SET that changes the binding of its name moves the counts
    exactly as the numbers of holders move: one more for the new value,
    one less for the value the name held, nothing else. *)
Theorem set_changing_moves_counts_like_holders s m c k val :
  reachable s → view s = Some (m, c) →
  is_word k = true → is_word val = true →
  m !! k ≠ Some (Some val) →
  ∃ s' c',
    performCommand (cmd [SET; k; val]) s = Ret tt s' ∧
    view s' = Some (<[k := Some val]> m, c') ∧
    ∀ w, (count_of c' w - count_of c w
          = Z.of_nat (holders w (<[k := Some val]> m))
            - Z.of_nat (holders w m))%Z.
Proof.
  intros Hr Hview Hk Hval Hchg.
  pose proof (reachable_view_covered s m c Hr Hview) as Hcov.
  apply view_Some in Hview as (x & v & Hcur & Hm & Hc).
  eexists _, (set_counts m c k val). split_and!.
  - by eapply perform_SET.
  - apply (view_intro _ x v); [exact Hcur|heap_lookup..].
  - intros w. rewrite count_of_set_counts, holders_insert.
    rewrite (holders_delete w k m).
    repeat case_decide; simplify_eq; try lia;
      exfalso; destruct_and?; simplify_eq; intuition eauto.
Qed.

Lemma set_changing_moves_counts_like_holders_witness :
  ∃ s' c',
    performCommand (cmd [SET; "a"; "20"]) one_binding = Ret tt s' ∧
    view s' = Some (<["a" := Some "20"]> {[ "a" := Some "10" ]}, c') ∧
    ∀ w, (count_of c' w - count_of {[ "10" := 1%Z ]} w
          = Z.of_nat (holders w (<["a" := Some "20"]> {[ "a" := Some "10" ]}))
            - Z.of_nat (holders w {[ "a" := Some "10" ]}))%Z.
Proof.
  apply (set_changing_moves_counts_like_holders one_binding
           {[ "a" := Some "10" ]} {[ "10" := 1%Z ]} "a" "20").
  - apply one_binding_reachable.
  - vm_compute. reflexivity.
  - reflexivity.
  - reflexivity.
  - vm_compute. discriminate.
Defined.

(** X8. UNSET of a name that the current transaction holds returns, binds
    the name to None and moves the counts exactly as the numbers of
    holders move: one less for the value the name held, if it held one. *)
Theorem unset_moves_counts_like_holders s m c k o :
  reachable s → view s = Some (m, c) →
  is_word k = true → m !! k = Some o →
  ∃ s' c',
    performCommand (cmd [UNSET; k]) s = Ret tt s' ∧
    view s' = Some (<[k := None]> m, c') ∧
    ∀ w, (count_of c' w - count_of c w
          = Z.of_nat (holders w (<[k := None]> m))
            - Z.of_nat (holders w m))%Z.
Proof.
  intros Hr Hview Hk Ho.
  pose proof (reachable_view_covered s m c Hr Hview) as Hcov.
  apply view_Some in Hview as (x & v & Hcur & Hm & Hc).
  destruct o as [old|].
  - destruct (Hcov _ _ Ho) as [n Hn].
    eexists _, (<[old := (n - 1)%Z]> c). split_and!.
    + by eapply perform_UNSET_some.
    + apply (view_intro _ x v); [exact Hcur|heap_lookup..].
    + intros w. rewrite count_of_insert, holders_insert.
      rewrite (holders_delete w k m).
      repeat case_decide; simplify_eq; try lia.
      unfold count_of. rewrite Hn. simpl. lia.
  - eexists _, c. split_and!.
    + by eapply perform_UNSET_none.
    + apply (view_intro _ x v); [exact Hcur|heap_lookup..].
    + intros w. rewrite holders_insert, (holders_delete w k m).
      repeat case_decide; simplify_eq; lia.
Qed.

Lemma unset_moves_counts_like_holders_witness :
  ∃ s' c',
    performCommand (cmd [UNSET; "a"]) one_binding = Ret tt s' ∧
    view s' = Some (<["a" := None]> {[ "a" := Some "10" ]}, c') ∧
    ∀ w, (count_of c' w - count_of {[ "10" := 1%Z ]} w
          = Z.of_nat (holders w (<["a" := None]> {[ "a" := Some "10" ]}))
            - Z.of_nat (holders w {[ "a" := Some "10" ]}))%Z.
Proof.
  apply (unset_moves_counts_like_holders one_binding
           {[ "a" := Some "10" ]} {[ "10" := 1%Z ]} "a" (Some "10")).
  - apply one_binding_reachable.
  - vm_compute. reflexivity.
  - reflexivity.
  - vm_compute. reflexivity.
Defined.

(** X9. SET then GET reads back what was set, and a SET on one name does
    not change what GET writes for another name. *)
Theorem set_then_get s m c k val k' :
  view s = Some (m, c) →
  is_word k = true → is_word val = true → is_word k' = true → k ≠ k' →
  ∃ s', main_loop [cmd [SET; k; val]; cmd [GET; k]; cmd [GET; k']] s
          = Ret tt s' ∧
        stdout s' = stdout s ++ [val +:+ Py.nl; get_text m k'].
Proof.
  intros (x & v & Hcur & Hm & Hc)%view_Some Hk Hval Hk' Hne.
  next_cmd perform_SET.
  next_cmd perform_GET.
  next_cmd perform_GET.
  eexists. split; [reflexivity|]. st_simpl.
  unfold get_text. rewrite lookup_insert_eq, lookup_insert_ne by done.
  by rewrite <- app_assoc.
Qed.

Lemma set_then_get_witness :
  ∃ s', main_loop [cmd [SET; "b"; "7"]; cmd [GET; "b"]; cmd [GET; "a"]]
          one_binding = Ret tt s' ∧
        stdout s' =
          stdout one_binding
          ++ ["7" +:+ Py.nl; get_text {[ "a" := Some "10" ]} "a"].
Proof.
  apply (set_then_get one_binding
           {[ "a" := Some "10" ]} {[ "10" := 1%Z ]} "b" "7" "a").
  - vm_compute. reflexivity.
  - reflexivity.
  - reflexivity.
  - reflexivity.
  - discriminate.
Defined.

(** X10. After UNSET of a name that is held, GET writes NULL for it, and
    what GET writes for another name is unchanged. *)
Theorem unset_then_get s m c k o k' :
  reachable s → view s = Some (m, c) →
  is_word k = true → is_word k' = true → k ≠ k' → m !! k = Some o →
  ∃ s', main_loop [cmd [UNSET; k]; cmd [GET; k]; cmd [GET; k']] s
          = Ret tt s' ∧
        stdout s' = stdout s ++ ["NULL" +:+ Py.nl; get_text m k'].
Proof.
  intros Hr Hview Hk Hk' Hne Ho.
  pose proof (reachable_view_covered s m c Hr Hview) as Hcov.
  apply view_Some in Hview as (x & v & Hcur & Hm & Hc).
  destruct o as [old|].
  - destruct (Hcov _ _ Ho) as [n Hn].
    next_cmd perform_UNSET_some.
    next_cmd perform_GET.
    next_cmd perform_GET.
    eexists. split; [reflexivity|]. st_simpl.
    unfold get_text. rewrite lookup_insert_eq, lookup_insert_ne by done.
    by rewrite <- app_assoc.
  - next_cmd perform_UNSET_none.
    next_cmd perform_GET.
    next_cmd perform_GET.
    eexists. split; [reflexivity|]. st_simpl.
    unfold get_text. rewrite lookup_insert_eq, lookup_insert_ne by done.
    by rewrite <- app_assoc.
Qed.

Lemma unset_then_get_witness :
  ∃ s', main_loop [cmd [UNSET; "a"]; cmd [GET; "a"]; cmd [GET; "b"]]
          one_binding = Ret tt s' ∧
        stdout s' =
          stdout one_binding
          ++ ["NULL" +:+ Py.nl; get_text {[ "a" := Some "10" ]} "b"].
Proof.
  apply (unset_then_get one_binding
           {[ "a" := Some "10" ]} {[ "10" := 1%Z ]} "a" (Some "10") "b").
  - apply one_binding_reachable.
  - vm_compute. reflexivity.
  - reflexivity.
  - reflexivity.
  - discriminate.
  - vm_compute. reflexivity.
Defined.

(** ** Further properties: states, exceptions and transactions *)

(** X11. Between two commands both stacks have the same height, there is
    more than one layer only inside a transaction, no dictionary sits in
    two layers, and every layer refers to dictionaries that exist. *)
Theorem stacks_stay_in_lockstep s :
  reachable s →
  length (xcts s) = length (valueCounts s) ∧
  (1 < length (xcts s) → inTransac s = true) ∧
  NoDup (xcts s) ∧ NoDup (valueCounts s) ∧
  (∀ i x v, xcts s !! i = Some x → valueCounts s !! i = Some v →
            is_Some (heapX s !! x) ∧ is_Some (heapC s !! v)).
Proof.
  intros Hs%reachable_inv. split_and!.
  - by apply inv_length.
  - intros Hlen. destruct (inTransac s) eqn:Ht; [done|].
    apply (inv_idle s Hs) in Ht. lia.
  - by apply inv_nodupX.
  - by apply inv_nodupC.
  - intros i x v Hx Hv.
    destruct (layer_contents s Hs i x v Hx Hv) as (m & c & -> & -> & _).
    eauto.
Qed.

Lemma stacks_stay_in_lockstep_witness :
  length (xcts one_binding) = length (valueCounts one_binding) ∧
  (1 < length (xcts one_binding) → inTransac one_binding = true) ∧
  NoDup (xcts one_binding) ∧ NoDup (valueCounts one_binding) ∧
  (∀ i x v, xcts one_binding !! i = Some x →
            valueCounts one_binding !! i = Some v →
            is_Some (heapX one_binding !! x) ∧
            is_Some (heapC one_binding !! v)).
Proof.
  apply (stacks_stay_in_lockstep one_binding).
  apply one_binding_reachable.
Defined.

Lemma point_current_fail_same s :
  current s = None →
  ∃ s', point_current s = Raise IndexError s' ∧ same_store s s'.
Proof.
  destruct s as [xs vs t cx cc hx hc out]. unfold current, same_store.
  st_simpl. intros H.
  cbv [point_current bind attr top first assign raise ret with_currXct
       with_currValCount xcts valueCounts inTransac negb].
  destruct t.
  - destruct (last xs); [destruct (last vs); [done|]|]; eexists; by split.
  - destruct (xs !! 0); [destruct (vs !! 0); [done|]|]; eexists; by split.
Qed.

(** X12. The exceptions a line can end in, in a state the program
    reaches: SystemExit only for END; KeyError only for UNSET of a name
    that the current transaction does not hold; IndexError only when no
    layer is left, or when SET, GET, UNSET or NUMEQUALTO lacks an argument.
    In each case the stacks, the flag, the dictionaries and the output are
    untouched. *)
Theorem exceptions_are_classified line s e s' :
  reachable s → performCommand line s = Raise e s' →
  same_store s s' ∧
  match e with
  | SystemExit => hd "" (fields line) = END ∧ xcts s ≠ []
  | KeyError =>
      hd "" (fields line) = UNSET ∧
      ∃ k m c, fields line !! 1 = Some k ∧ view s = Some (m, c) ∧
               m !! k = None
  | IndexError =>
      xcts s = [] ∨
      (hd "" (fields line) ∈ data_commands ∧
       (fields line !! 1 = None ∨
        (hd "" (fields line) = SET ∧ fields line !! 2 = None)))
  end.
Proof.
  intros Hs%reachable_inv.
  destruct (split_cons " " (Py.strip line)) as (cw & rest & Hf).
  fold (fields line) in Hf.
  rewrite (performCommand_fields line cw rest s Hf), Hf. cbn [hd].
  destruct (current s) as [[x v]|] eqn:Hcur.
  2: { destruct (point_current_fail_same s Hcur) as (s0 & E & Hsame).
       erewrite run_bind_raise by exact E. intros [= <- <-].
       split; [done|]. left.
       destruct (decide (xcts s = [])) as [|Hne]; [done|].
       destruct (current_is_Some s Hs Hne) as [? E']. by rewrite E' in Hcur. }
  erewrite run_bind by (by apply point_current_run).
  destruct (current_layer s Hs x v Hcur) as (i & Hx & Hv).
  destruct (layer_contents s Hs i x v Hx Hv) as (m & c & Hm & Hc & Hcov).
  destruct (current_top s x v Hs Hcur) as [Hlx Hlv].
  assert (xcts s ≠ []) as Hne by (intros E; by rewrite E in Hx).
  assert (same_store s (with_currValCount v (with_currXct x s))) as Hsame
    by done.
  unfold dispatch. repeat case_decide.
  - by erewrite begin_run by (st_simpl; eassumption).
  - destruct (inTransac s) eqn:Ht.
    + erewrite rollback_run_pop; st_simpl; try done.
      intros E. by rewrite E in Hv.
    + by erewrite rollback_run_idle by done.
  - destruct (inTransac s) eqn:Ht.
    + by erewrite commit_run by (st_simpl; eassumption).
    + by erewrite commit_run_idle by done.
  - rewrite bind_field. destruct (_ !! 1) as [k|] eqn:E1.
    2: { intros [= <- <-]. split; [done|]. right. subst cw. split; [|by left]. unfold data_commands. set_solver. }
    rewrite bind_field. destruct (_ !! 2) as [val|] eqn:E2.
    2: { intros [= <- <-]. split; [done|]. right. subst cw. split; [|by right]. unfold data_commands. set_solver. }
    by erewrite set_run by (st_simpl; eassumption).
  - rewrite bind_field. destruct (_ !! 1) as [k|] eqn:E1.
    2: { intros [= <- <-]. split; [done|]. right. subst cw. split; [|by left]. unfold data_commands. set_solver. }
    by erewrite get_run by (st_simpl; eassumption).
  - rewrite bind_field. destruct (_ !! 1) as [k|] eqn:E1.
    2: { intros [= <- <-]. split; [done|]. right. subst cw. split; [|by left]. unfold data_commands. set_solver. }
    destruct (m !! k) as [[old|]|] eqn:Hk.
    + destruct (Hcov _ _ Hk) as [n Hn].
      by erewrite unset_run_some by (st_simpl; eassumption).
    + by erewrite unset_run_none by (st_simpl; eassumption).
    + erewrite unset_run_absent by (st_simpl; eassumption).
      intros [= <- <-]. split; [done|]. split; [done|].
      exists k, m, c. split_and!; [done| |done].
      by apply (view_intro s x v).
  - rewrite bind_field. destruct (_ !! 1) as [val|] eqn:E1.
    2: { intros [= <- <-]. split; [done|]. right. subst cw. split; [|by left]. unfold data_commands. set_solver. }
    by erewrite numEqualTo_run by (st_simpl; eassumption).
  - intros [= <- <-]. done.
  - by rewrite write_run.
Qed.

Lemma exceptions_are_classified_witness :
  same_store one_binding (with_currValCount 0 (with_currXct 0 one_binding)) ∧
  hd "" (fields (cmd [UNSET; "b"])) = UNSET ∧
  ∃ k m c, fields (cmd [UNSET; "b"]) !! 1 = Some k ∧
           view one_binding = Some (m, c) ∧ m !! k = None.
Proof.
  apply (exceptions_are_classified (cmd [UNSET; "b"]) one_binding KeyError
           (with_currValCount 0 (with_currXct 0 one_binding))).
  - apply one_binding_reachable.
  - vm_compute. reflexivity.
Defined.

(** In a state the program reaches, the view is read at the top of the
    stacks, whatever the flag says. *)
Lemma reachable_view_top s m c :
  reachable s → view s = Some (m, c) →
  ∃ x v, current s = Some (x, v) ∧
         last (xcts s) = Some x ∧ last (valueCounts s) = Some v ∧
         heapX s !! x = Some m ∧ heapC s !! v = Some c ∧
         x < length (heapX s) ∧ v < length (heapC s).
Proof.
  intros Hs%reachable_inv (x & v & Hcur & Hm & Hc)%view_Some.
  destruct (current_top s x v Hs Hcur) as [Hlx Hlv].
  exists x, v. split_and!; eauto using lookup_lt_Some.
Qed.

(** X13. BEGIN and COMMIT return and do not change what GET and
    NUMEQUALTO read: BEGIN adds one layer holding what the current pair
    holds, COMMIT leaves one layer holding what the current pair holds,
    with the flag cleared. *)
Theorem begin_and_commit_keep_the_view s m c :
  reachable s → view s = Some (m, c) →
  (∃ s1, performCommand (cmd [BEGIN]) s = Ret tt s1 ∧
         view s1 = Some (m, c) ∧ stdout s1 = stdout s ∧
         length (xcts s1) = S (length (xcts s)) ∧ inTransac s1 = true) ∧
  (∃ s2, performCommand (cmd [COMMIT]) s = Ret tt s2 ∧
         view s2 = Some (m, c) ∧
         length (xcts s2) = 1 ∧ inTransac s2 = false).
Proof.
  intros Hr Hview.
  destruct (reachable_view_top s m c Hr Hview)
    as (x & v & Hcur & Hlx & Hlv & Hm & Hc & Hx & Hv).
  apply reachable_inv in Hr as Hs.
  split.
  - eexists. split; [by apply (perform_BEGIN s x v Hcur x v m c)|].
    split_and!; st_simpl; try done.
    + apply (view_intro _ (length (heapX s)) (length (heapC s)));
        [cur_solve|heap_lookup..].
    + rewrite length_app. simpl. lia.
  - destruct (inTransac s) eqn:Ht.
    + eexists. split; [by eapply perform_COMMIT_open|].
      split_and!; st_simpl; try done.
      apply (view_intro _ (length (heapX s)) (length (heapC s)));
        [cur_solve|heap_lookup..].
    + eexists. split; [by eapply perform_COMMIT_idle|].
      split_and!; st_simpl; try done.
      * apply (view_intro _ x v); [|done..].
        unfold current in *. st_simpl. by rewrite Ht in Hcur.
      * pose proof (inv_idle s Hs Ht).
        destruct (xcts s) as [|? [|??]]; simpl in *; [done|done|lia].
Qed.

Lemma begin_and_commit_keep_the_view_witness :
  (∃ s1, performCommand (cmd [BEGIN]) one_binding = Ret tt s1 ∧
         view s1 = Some ({[ "a" := Some "10" ]}, {[ "10" := 1%Z ]}) ∧
         stdout s1 = stdout one_binding ∧
         length (xcts s1) = S (length (xcts one_binding)) ∧
         inTransac s1 = true) ∧
  (∃ s2, performCommand (cmd [COMMIT]) one_binding = Ret tt s2 ∧
         view s2 = Some ({[ "a" := Some "10" ]}, {[ "10" := 1%Z ]}) ∧
         length (xcts s2) = 1 ∧ inTransac s2 = false).
Proof.
  apply (begin_and_commit_keep_the_view one_binding).
  - apply one_binding_reachable.
  - vm_compute. reflexivity.
Defined.

Lemma main_loop_app l1 l2 s s1 :
  Forall (λ l, l ≠ "") l1 → main_loop l1 s = Ret tt s1 →
  main_loop (l1 ++ l2) s = main_loop l2 s1.
Proof.
  intros Hl1. revert s. induction l1 as [|l l1 IH]; intros s Hrun.
  - unfold main_loop, skip, ret in Hrun. by simplify_eq.
  - apply Forall_cons in Hl1 as [Hl Hl1].
    cbn [main_loop app] in *. rewrite decide_False in * by done.
    unfold bind in *. destruct (performCommand l s) as [[] t| |]; [|done..].
    by apply IH.
Qed.

(** X14. Any number of BEGINs followed by as many ROLLBACKs writes nothing
    and brings back both stacks and the view; the dictionaries that
    existed are as they were. *)
Theorem nested_begin_rollback_balance n s :
  reachable s → xcts s ≠ [] →
  ∃ s', main_loop (replicate n (cmd [BEGIN]) ++ replicate n (cmd [ROLLBACK]))
                  s = Ret tt s' ∧
        xcts s' = xcts s ∧ valueCounts s' = valueCounts s ∧
        stdout s' = stdout s ∧ view s' = view s ∧
        heapX s `prefix_of` heapX s' ∧ heapC s `prefix_of` heapC s' ∧
        inTransac s' = match n with 0 => inTransac s | S _ => true end.
Proof.
  revert s. induction n as [|n IH]; intros s Hr Hne.
  { exists s. by split_and!. }
  destruct (reachable_layer s Hr Hne)
    as (x & v & m & c & Hcur & Hlx & Hlv & Hm & Hc & _).
  assert (x < length (heapX s)) as Hx by eauto using lookup_lt_Some.
  assert (v < length (heapC s)) as Hv by eauto using lookup_lt_Some.
  pose proof (perform_BEGIN s x v Hcur x v m c Hlx Hlv Hm Hc) as Hbegin.
  set (s1 := mkState _ _ _ _ _ _ _ _) in Hbegin.
  assert (reachable s1) as Hr1 by (by eapply reach_step).
  destruct (IH s1 Hr1) as (s2 & Hrun & Hx2 & Hv2 & Hout2 & _ & [hx Hh2]
                           & [hc Hc2] & Ht2).
  { subst s1. st_simpl. by destruct (xcts s). }
  assert (inTransac s2 = true) as Ht2' by (by destruct n).
  subst s1. cbn [xcts valueCounts heapX heapC stdout] in *.
  assert (current s2 = Some (length (heapX s), length (heapC s))) as Hcur2.
  { unfold current. by rewrite Ht2', Hx2, Hv2, !last_snoc. }
  pose proof (perform_ROLLBACK_pop s2 _ _ Hcur2 Ht2') as Hroll.
  rewrite Hx2, Hv2, !removelast_last, Hout2 in Hroll.
  rewrite bool_decide_false in Hroll by done. cbn [negb] in Hroll.
  eexists. split.
  { rewrite replicate_S, replicate_S_end. cbn [app].
    rewrite (main_loop_cons _ _ _ _ (cmd_nonempty _) Hbegin).
    rewrite app_assoc.
    rewrite (main_loop_app _ [cmd [ROLLBACK]] _ s2).
    - by rewrite (main_loop_cons _ _ _ _ (cmd_nonempty _) Hroll).
    - apply Forall_app_2; apply Forall_replicate, cmd_nonempty.
    - done. }
  st_simpl. split_and!; try done.
  - rewrite (view_intro s x v m c) by done.
    apply (view_intro _ x v).
    + unfold current. st_simpl. by rewrite Hlx, Hlv.
    + st_simpl. rewrite Hh2. heap_lookup.
    + st_simpl. rewrite Hc2. heap_lookup.
  - rewrite Hh2, <- app_assoc. by eexists.
  - rewrite Hc2, <- app_assoc. by eexists.
Qed.

Lemma nested_begin_rollback_balance_witness :
  ∃ s', main_loop (replicate 3 (cmd [BEGIN]) ++ replicate 3 (cmd [ROLLBACK]))
                  one_binding = Ret tt s' ∧
        xcts s' = xcts one_binding ∧ valueCounts s' = valueCounts one_binding ∧
        stdout s' = stdout one_binding ∧ view s' = view one_binding ∧
        heapX one_binding `prefix_of` heapX s' ∧
        heapC one_binding `prefix_of` heapC s' ∧
        inTransac s' = true.
Proof.
  apply (nested_begin_rollback_balance 3 one_binding).
  - apply one_binding_reachable.
  - discriminate.
Defined.

(** X15. ROLLBACK undoes every SET and UNSET sent since the BEGIN it
    answers: both stacks and the view are what they were before BEGIN. *)
Theorem rollback_undoes_updates s lines s2 :
  reachable s → xcts s ≠ [] → Forall is_update lines →
  main_loop (cmd [BEGIN] :: lines) s = Ret tt s2 →
  ∃ s3, performCommand (cmd [ROLLBACK]) s2 = Ret tt s3 ∧
        xcts s3 = xcts s ∧ valueCounts s3 = valueCounts s ∧
        view s3 = view s.
Proof.
  intros Hr Hne Hlines Hrun.
  destruct (reachable_layer s Hr Hne)
    as (x & v & m & c & Hcur & Hlx & Hlv & Hm & Hc & _).
  assert (x < length (heapX s)) as Hx by eauto using lookup_lt_Some.
  assert (v < length (heapC s)) as Hv by eauto using lookup_lt_Some.
  pose proof (perform_BEGIN s x v Hcur x v m c Hlx Hlv Hm Hc) as Hbegin.
  set (s1 := mkState _ _ _ _ _ _ _ _) in Hbegin.
  rewrite (main_loop_cons _ _ _ _ (cmd_nonempty _) Hbegin) in Hrun.
  assert (pushed_on s s1) as Hs1.
  { unfold pushed_on. split_and!; try reflexivity. by exists m, c. }
  destruct (updates_pushed_on s lines s1 Hs1 Hlines) as (t & Hfin & Ht).
  rewrite Hrun in Hfin. simpl in Hfin. simplify_eq.
  destruct Ht as (Hx2 & Hv2 & Ht2 & m2 & c2 & Hm2 & Hc2).
  assert (current t = Some (length (heapX s), length (heapC s))) as Hcur2.
  { unfold current. by rewrite Ht2, Hx2, Hv2, !last_snoc. }
  pose proof (perform_ROLLBACK_pop t _ _ Hcur2 Ht2) as Hroll.
  rewrite Hx2, Hv2, !removelast_last in Hroll.
  rewrite bool_decide_false in Hroll by done. cbn [negb] in Hroll.
  eexists. split; [exact Hroll|]. st_simpl. split_and!; try done.
  rewrite (view_intro s x v m c) by done.
  apply (view_intro _ x v).
  - unfold current. st_simpl. by rewrite Hlx, Hlv.
  - st_simpl. rewrite Hm2. heap_lookup.
  - st_simpl. rewrite Hc2. heap_lookup.
Qed.

Lemma rollback_undoes_updates_witness :
  ∃ s3,
    performCommand (cmd [ROLLBACK])
      (match main_loop [cmd [BEGIN]; cmd [SET; "a"; "99"]; cmd [UNSET; "a"];
                        cmd [SET; "b"; "1"]] one_binding with
       | Ret _ t => t
       | _ => init
       end) = Ret tt s3 ∧
    xcts s3 = xcts one_binding ∧ valueCounts s3 = valueCounts one_binding ∧
    view s3 = view one_binding.
Proof.
  apply (rollback_undoes_updates one_binding
           [cmd [SET; "a"; "99"]; cmd [UNSET; "a"]; cmd [SET; "b"; "1"]]).
  - apply one_binding_reachable.
  - discriminate.
  - apply Forall_cons_2; [by left|].
    apply Forall_cons_2; [by right|].
    apply Forall_cons_2; [by left|].
    apply Forall_nil_2.
  - vm_compute. reflexivity.
Defined.

(** X16. A fresh database holds nothing: GET writes NULL for every name,
    NUMEQUALTO writes 0 for every value, ROLLBACK and COMMIT write
    NO TRANSACTION, and UNSET of any name raises KeyError. *)
Theorem fresh_database_is_empty k w :
  is_word k = true → is_word w = true →
  (∃ s, main [cmd [GET; k]; cmd [NUMEQUALTO; w]; cmd [ROLLBACK];
              cmd [COMMIT]] = Ret tt s ∧
        stdout s = ["NULL" +:+ Py.nl; "0"; Py.nl;
                    "NO TRANSACTION" +:+ Py.nl;
                    "NO TRANSACTION" +:+ Py.nl] ∧
        same_store init (with_stdout [] s)) ∧
  (∃ s, main [cmd [UNSET; k]] = Raise KeyError s).
Proof.
  intros Hk Hw. unfold main. split.
  - assert (current init = Some (0, 0)) as Hcur by done.
    assert (heapX init !! 0 = Some ∅) as Hm by done.
    assert (heapC init !! 0 = Some ∅) as Hc by done.
    next_cmd perform_GET.
    next_cmd perform_NUMEQUALTO.
    next_cmd perform_ROLLBACK_idle.
    next_cmd perform_COMMIT_idle.
    eexists. split; [reflexivity|]. by split.
  - eexists. apply main_loop_raise; [apply cmd_nonempty|].
    by eapply (perform_UNSET_absent init 0 0 ∅).
Qed.

Lemma fresh_database_is_empty_witness :
  (∃ s, main [cmd [GET; "a"]; cmd [NUMEQUALTO; "10"]; cmd [ROLLBACK];
              cmd [COMMIT]] = Ret tt s ∧
        stdout s = ["NULL" +:+ Py.nl; "0"; Py.nl;
                    "NO TRANSACTION" +:+ Py.nl;
                    "NO TRANSACTION" +:+ Py.nl] ∧
        same_store init (with_stdout [] s)) ∧
  (∃ s, main [cmd [UNSET; "a"]] = Raise KeyError s).
Proof.
  apply (fresh_database_is_empty "a" "10"); reflexivity.
Defined.

(** ** Further properties: padding *)

Lemma lstrip_blank_app pre l :
  blank pre = true → Py.lstrip (pre +:+ l) = Py.lstrip l.
Proof.
  induction pre as [|c pre IH]; [done|].
  intros [Hc Hpre]%andb_prop. rewrite (app_cons_str c pre).
  cbn [Py.lstrip]. rewrite Hc. by apply IH.
Qed.

Lemma lstrip_blank post : blank post = true → Py.lstrip post = "".
Proof.
  induction post as [|c post IH]; [done|].
  intros [Hc Hpost]%andb_prop. cbn [Py.lstrip]. rewrite Hc. by apply IH.
Qed.

Lemma rstrip_blank post : blank post = true → Py.rstrip post = "".
Proof.
  induction post as [|c post IH]; [done|].
  intros [Hc Hpost]%andb_prop. cbn [Py.rstrip]. by rewrite IH, Hc.
Qed.

Lemma rstrip_app_blank l post :
  blank post = true → Py.rstrip (l +:+ post) = Py.rstrip l.
Proof.
  intros Hpost. induction l as [|c l IH].
  - by rewrite app_nil_l_str, rstrip_blank.
  - rewrite (app_cons_str c l). cbn [Py.rstrip]. by rewrite IH.
Qed.

Lemma strip_app_blank l post :
  blank post = true → Py.strip (l +:+ post) = Py.strip l.
Proof.
  intros Hpost. unfold Py.strip. induction l as [|c l IH].
  - by rewrite app_nil_l_str, lstrip_blank.
  - rewrite (app_cons_str c l). cbn [Py.lstrip].
    destruct (Py.is_space c); [done|].
    rewrite <- (app_cons_str c l). by apply rstrip_app_blank.
Qed.

(** X17. Whitespace before and after a line is dropped before the line is
    cut into fields: a padded line does what the bare line does. *)
Theorem padding_is_ignored pre l post s :
  blank pre = true → blank post = true →
  fields (pre +:+ l +:+ post) = fields l ∧
  performCommand (pre +:+ l +:+ post) s = performCommand l s.
Proof.
  intros Hpre Hpost.
  assert (Py.strip (pre +:+ l +:+ post) = Py.strip l) as Hs.
  { unfold Py.strip at 1. rewrite lstrip_blank_app by done.
    by apply strip_app_blank. }
  unfold fields, performCommand. by rewrite Hs.
Qed.

Lemma padding_is_ignored_witness :
  fields ("  " +:+ "GET a" +:+ (" " +:+ Py.nl)) = fields "GET a" ∧
  performCommand ("  " +:+ "GET a" +:+ (" " +:+ Py.nl)) one_binding
  = performCommand "GET a" one_binding.
Proof.
  apply (padding_is_ignored "  " "GET a" (" " +:+ Py.nl) one_binding);
    reflexivity.
Defined.
